(** * Inspecting_Satellite_Imagery: the georeferencing arithmetic of the notebook

    The notebook opens a raster through an external raster library and
    prints its bounding box, its resolution, the world coordinates of its
    corner pixels and the band values at one world coordinate.  The cells
    are embedded below as pure functions on a [Dataset] value.  Python
    floats are read as exact rationals ([Q]), which is how the spec states
    the coefficients (real-valued); Python integers are [Z]; operations
    that raise in Python return [Err].  Equality of rationals is [==].
    Where the rounding of binary64 arithmetic decides a statement, the
    computation is embedded a second time on machine floats, in the module
    [Binary64]. *)

From Stdlib Require Import ZArith QArith Qround Qabs Qminmax.
From Stdlib Require Import Lqa Lia List Bool.
From Stdlib Require Import Floats.
Import ListNotations.

Open Scope Q_scope.

(** ** Exceptions as results *)

Inductive error : Type :=
| ZeroDivisionError
| IndexError
| SingularTransform.

Inductive result (A : Type) : Type :=
| Ok (x : A)
| Err (e : error).

Arguments Ok {A} x.
Arguments Err {A} e.

Definition bind {A B : Type} (m : result A) (k : A -> result B) : result B :=
  match m with
  | Ok x => k x
  | Err e => Err e
  end.

Notation "x <- m ;; k" := (bind m (fun x => k))
  (at level 61, m at next level, right associativity).
Notation "' p <- m ;; k" := (bind m (fun x => match x with p => k end))
  (at level 61, p pattern, m at next level, right associativity).

(** Python's true division [x / n] of a float by an integer. *)
Definition truediv (x : Q) (n : Z) : result Q :=
  if (n =? 0)%Z then Err ZeroDivisionError else Ok (x / inject_Z n).

(** ** The affine transform *)

Module Affine.

(** The six coefficients of the dataset's transform. *)
Record t : Type := mk { a : Q; b : Q; c : Q; d : Q; e : Q; f : Q }.

(** Modelled from the spec: the raster library's [transform * (vx, vy)],
    which is not part of the notebook.  The spec gives the mapping as
    [x_world = a * col + b * row + c], [y_world = d * col + e * row + f];
    the first component of the argument pair is the column. *)
Definition mul (T : t) (v : Q * Q) : Q * Q :=
  let '(vx, vy) := v in
  (a T * vx + b T * vy + c T, d T * vx + e T * vy + f T).

(** Determinant of the linear part [[a, b], [d, e]]. *)
Definition determinant (T : t) : Q := a T * e T - b T * d T.

Definition is_degenerate (T : t) : bool := Qeq_bool (determinant T) 0.

(** Modelled from the spec: the inverse transform [~transform] of the
    raster library.  The spec asks for the solution of the linear system
    of the forward mapping and for a [SingularTransform] failure when the
    linear part has determinant zero. *)
Definition invert (T : t) : result t :=
  if is_degenerate T then Err SingularTransform
  else
    let idet := / determinant T in
    let ra := e T * idet in
    let rb := - b T * idet in
    let rd := - d T * idet in
    let re := a T * idet in
    Ok (mk ra rb (- c T * ra - f T * rb) rd re (- c T * rd - f T * re)).

End Affine.

(** ** Rounding policies *)

Inductive rounding_policy : Type := floor | round | ceil.

(** Python 3 [round]: to the nearest integer, ties to the even one. *)
Definition Qround_half_even (q : Q) : Z :=
  let fl := Qfloor q in
  match Qcompare (q - inject_Z fl) (1 # 2) with
  | Lt => fl
  | Gt => (fl + 1)%Z
  | Eq => if Z.even fl then fl else (fl + 1)%Z
  end.

Definition apply_policy (op : rounding_policy) (q : Q) : Z :=
  match op with
  | floor => Qfloor q
  | round => Qround_half_even q
  | ceil => Qceiling q
  end.

(** ** The operations of the spec's AffineGeoTransform *)

(** Modelled from the spec: [pixel_to_world(row, col)], the forward mapping
    applied to the pixel in (row, col) order. *)
Definition pixel_to_world (T : Affine.t) (row col : Z) : Q * Q :=
  Affine.mul T (inject_Z col, inject_Z row).

(** Modelled from the spec: the fractional (row_f, col_f) obtained by
    inverting the forward mapping at a world point. *)
Definition world_to_fractional (T : Affine.t) (x y : Q) : result (Q * Q) :=
  inv <- Affine.invert T ;;
  let '(fcol, frow) := Affine.mul inv (x, y) in
  Ok (frow, fcol).

(** Modelled from the spec: [world_to_pixel(x, y, rounding_policy)], the
    raster library's [index(x, y, op)]; the policy is applied to each
    fractional coordinate on its own and the result is (row, col). *)
Definition world_to_pixel (T : Affine.t) (x y : Q) (op : rounding_policy)
  : result (Z * Z) :=
  '(frow, fcol) <- world_to_fractional T x y ;;
  Ok (apply_policy op frow, apply_policy op fcol).

(** The concrete transform of the spec's scenarios: 3-metre north-up pixels. *)
Definition T3 : Affine.t := Affine.mk 3 0 500000 0 (-3) 4000000.


(** ** Resolution and the square-pixel predicate of the spec *)

(** Modelled from the spec: [resolution()] is (sqrt(a^2 + d^2),
    sqrt(b^2 + e^2)).  A rational has no computable square root in general,
    so the pair is recognised instead of computed: [xr] and [yr] are the
    non-negative numbers whose squares are the two sums. *)
Definition is_resolution (T : Affine.t) (xr yr : Q) : bool :=
  Qle_bool 0 xr
  && Qeq_bool (xr * xr) (Affine.a T * Affine.a T + Affine.d T * Affine.d T)
  && Qle_bool 0 yr
  && Qeq_bool (yr * yr) (Affine.b T * Affine.b T + Affine.e T * Affine.e T).

(** Spec version of the square-pixel predicate, written after the spec's
    words: true when [|xres - yres| <= tolerance]. *)
Definition is_square_pixel_spec (tolerance xres yres : Q) : bool :=
  Qle_bool (Qabs (xres - yres)) tolerance.

(** ** Band arrays *)

(** A band is a two-dimensional array, stored by rows. *)
Definition ndarray : Type := list (list Z).

(** One subscript of an array access along an axis of length [n]: a
    negative subscript counts from the end, anything outside [-n, n) raises
    [IndexError]. *)
Definition normalize_index (n i : Z) : result Z :=
  if ((i <? - n) || (n <=? i))%Z then Err IndexError
  else Ok (if (i <? 0)%Z then (i + n)%Z else i).

Definition getitem {A : Type} (l : list A) (i : Z) : result A :=
  k <- normalize_index (Z.of_nat (length l)) i ;;
  match nth_error l (Z.to_nat k) with
  | Some x => Ok x
  | None => Err IndexError
  end.

(** [arr[i, j]] *)
Definition getitem2 (arr : ndarray) (i j : Z) : result Z :=
  r <- getitem arr i ;;
  getitem r j.

(** [arr] has [h] rows of [w] entries each. *)
Definition has_shape (arr : ndarray) (h w : Z) : Prop :=
  Z.of_nat (length arr) = h /\ Forall (fun r => Z.of_nat (length r) = w) arr.

(** ** The opened dataset *)

Module BoundingBox.
Record t : Type := mk { left : Q; bottom : Q; right : Q; top : Q }.
End BoundingBox.

(** What the notebook reads from [satdat]: the transform, the grid size and
    the four bands that [satdat.read()] yields in the order blue, green, red,
    nir. *)
Record Dataset : Type := mkDataset {
  transform : Affine.t;
  width : Z;
  height : Z;
  blue : ndarray;
  green : ndarray;
  red : ndarray;
  nir : ndarray
}.

Definition Qmin4 (p q r s : Q) : Q := Qmin (Qmin p q) (Qmin r s).
Definition Qmax4 (p q r s : Q) : Q := Qmax (Qmax p q) (Qmax r s).

(** Modelled from the spec: [satdat.bounds] is computed by the raster
    library.  The spec calls it the rectangular extent of the raster in
    projected coordinates, with [right >= left] and [top >= bottom]: the
    smallest axis-parallel box around the images of the four grid corners. *)
Definition bounds (ds : Dataset) : BoundingBox.t :=
  let T := transform ds in
  let w := inject_Z (width ds) in
  let h := inject_Z (height ds) in
  let '(x0, y0) := Affine.mul T (0, 0) in
  let '(x1, y1) := Affine.mul T (0, h) in
  let '(x2, y2) := Affine.mul T (w, h) in
  let '(x3, y3) := Affine.mul T (w, 0) in
  BoundingBox.mk (Qmin4 x0 x1 x2 x3) (Qmin4 y0 y1 y2 y3)
                 (Qmax4 x0 x1 x2 x3) (Qmax4 y0 y1 y2 y3).

(** [satdat.index(x, y, op=...)]: the library's conversion of a world point
    to (row, col) with the dataset's transform. *)
Definition index (ds : Dataset) (x y : Q) (op : rounding_policy)
  : result (Z * Z) :=
  world_to_pixel (transform ds) x y op.

(** The index range of the dataset's pixel grid, [0, height) x [0, width). *)
Definition valid_index (ds : Dataset) (row col : Z) : bool :=
  ((0 <=? row) && (row <? height ds) && (0 <=? col) && (col <? width ds))%Z.

(** ** The cells of the notebook *)

(** "Get dimensions, in map units". *)
Definition dimensions_cell (ds : Dataset) : Q * Q :=
  let width_in_projected_units :=
    BoundingBox.right (bounds ds) - BoundingBox.left (bounds ds) in
  let height_in_projected_units :=
    BoundingBox.top (bounds ds) - BoundingBox.bottom (bounds ds) in
  (width_in_projected_units, height_in_projected_units).

(** The comparison [xres == yres] printed as "Are the pixels square". *)
Definition pixels_square (xres yres : Q) : bool := Qeq_bool xres yres.

(** "What are the dimensions of a single pixel": xres, yres and the flag. *)
Definition resolution_cell (ds : Dataset) : result (Q * Q * bool) :=
  xres <- truediv (BoundingBox.right (bounds ds) - BoundingBox.left (bounds ds))
                  (width ds) ;;
  yres <- truediv (BoundingBox.top (bounds ds) - BoundingBox.bottom (bounds ds))
                  (height ds) ;;
  Ok (xres, yres, pixels_square xres yres).

(** "Convert pixel coordinates to world coordinates": topleft and botright.
    The transform is applied to the pairs (row_min, col_min) and
    (row_max, col_max) as the cell writes them. *)
Definition corners_cell (ds : Dataset) : (Q * Q) * (Q * Q) :=
  let row_min := 0%Z in
  let col_min := 0%Z in
  let row_max := (height ds - 1)%Z in
  let col_max := (width ds - 1)%Z in
  let topleft := Affine.mul (transform ds) (inject_Z row_min, inject_Z col_min) in
  let botright := Affine.mul (transform ds) (inject_Z row_max, inject_Z col_max) in
  (topleft, botright).

(** World coordinates for the desired pixel of the lookup cell. *)
Definition lookup_coords (ds : Dataset) : Q * Q :=
  let x_coord := BoundingBox.left (bounds ds) - 2000 in
  let y_coord := BoundingBox.top (bounds ds) + 2000 in
  (x_coord, y_coord).

(** The variables (row, col) of the lookup cell after
    [col, row = satdat.index(x_coord, y_coord, op=math.floor)]; the casts
    [int(col)], [int(row)] leave the integers as they are. *)
Definition lookup_subscript (ds : Dataset) : result (Z * Z) :=
  let '(x_coord, y_coord) := lookup_coords ds in
  '(col, row) <- index ds x_coord y_coord floor ;;
  Ok (row, col).

(** The four prints of the lookup cell at the subscripts (row, col): red,
    green, blue, nir.  The first access that raises ends the cell. *)
Definition read_bands (ds : Dataset) (row col : Z) : result (Z * Z * Z * Z) :=
  vr <- getitem2 (red ds) row col ;;
  vg <- getitem2 (green ds) row col ;;
  vb <- getitem2 (blue ds) row col ;;
  vn <- getitem2 (nir ds) row col ;;
  Ok (vr, vg, vb, vn).

(** "Let's grab the pixel ...": the whole lookup cell. *)
Definition lookup_cell (ds : Dataset) : result (Z * Z * Z * Z) :=
  '(row, col) <- lookup_subscript ds ;;
  read_bands ds row col.

(** The entry at the absolute position (i, j) of a band, counted from the
    top-left corner; used to name the pixel an access lands on. *)
Definition pixel (arr : ndarray) (i j : Z) : Z :=
  nth (Z.to_nat j) (nth (Z.to_nat i) arr []) 0%Z.

(** The raster is north-up with positive pixel sizes: no rotation, x grows
    with the column, y falls with the row, and the grid is not empty. *)
Definition north_up (ds : Dataset) : Prop :=
  Affine.b (transform ds) == 0 /\ Affine.d (transform ds) == 0
  /\ 0 < Affine.a (transform ds) /\ Affine.e (transform ds) < 0
  /\ (0 < width ds)%Z /\ (0 < height ds)%Z.

(** Every band has [height] rows and [width] columns. *)
Definition well_shaped (ds : Dataset) : Prop :=
  has_shape (blue ds) (height ds) (width ds)
  /\ has_shape (green ds) (height ds) (width ds)
  /\ has_shape (red ds) (height ds) (width ds)
  /\ has_shape (nir ds) (height ds) (width ds).

(** ** Sample scenes *)

(** A band of 3 rows and 4 columns whose entry at (i, j) is [k + 10 i + j]. *)
Definition sample_band (k : Z) : ndarray :=
  map (fun i => map (fun j => (k + 10 * Z.of_nat i + Z.of_nat j)%Z) (seq 0 4))
      (seq 0 3).

Definition sample_scene (T : Affine.t) : Dataset :=
  mkDataset T 4 3 (sample_band 100) (sample_band 200) (sample_band 300)
            (sample_band 400).

(** 3-metre pixels: the scene is 12 m wide and 9 m high. *)
Definition scene_3m : Dataset := sample_scene T3.

(** 1-kilometre pixels: the scene is 4 km wide and 3 km high. *)
Definition scene_1km : Dataset :=
  sample_scene (Affine.mk 1000 0 500000 0 (-1000) 4000000).

(** Pixels 3 m wide and 3.0000000001 m high. *)
Definition scene_nearly_square : Dataset :=
  sample_scene (Affine.mk 3 0 500000 0 (-3.0000000001) 4000000).

(** Pixels 1 km wide and 500 m high. *)
Definition scene_oblong : Dataset :=
  sample_scene (Affine.mk 1000 0 500000 0 (-500) 4000000).

(** A transform whose linear part is zero: every pixel maps to (c, f). *)
Definition scene_collapsed : Dataset :=
  sample_scene (Affine.mk 0 0 500000 0 0 4000000).

(** ** The band cells *)

(** The band cells can also raise ValueError, on top of the exceptions
    above. *)
Inductive exception : Type :=
| Raised (e : error)
| ValueError.

Inductive outcome (A : Type) : Type :=
| Return (x : A)
| Raise (e : exception).

Arguments Return {A} x.
Arguments Raise {A} e.

Definition and_then {A B : Type} (m : outcome A) (k : A -> outcome B)
  : outcome B :=
  match m with
  | Return x => k x
  | Raise e => Raise e
  end.

Notation "x <~ m ;; k" := (and_then m (fun x => k))
  (at level 61, m at next level, right associativity).

(** [data.min()] and [data.max()] over the entries of an array, given as a
    flat list; a zero-size array has no minimum and raises ValueError. *)
Definition amin (entries : list Z) : outcome Z :=
  match entries with
  | [] => Raise ValueError
  | x :: rest => Return (fold_left Z.min rest x)
  end.

Definition amax (entries : list Z) : outcome Z :=
  match entries with
  | [] => Raise ValueError
  | x :: rest => Return (fold_left Z.max rest x)
  end.

(** The entries of a band, row after row. *)
Definition ravel (arr : ndarray) : list Z := concat arr.

(** [satdat.read()]: all bands, in the order the read cell unpacks them,
    [blue, green, red, nir = satdat.read()]. *)
Definition read_all (ds : Dataset) : list ndarray :=
  [blue ds; green ds; red ds; nir ds].

(** [satdat.count] *)
Definition count (ds : Dataset) : Z := Z.of_nat (length (read_all ds)).

(** [satdat.indexes]: the band indexes, counted from one. *)
Definition indexes (ds : Dataset) : list Z :=
  map Z.of_nat (seq 1 (length (read_all ds))).

(** [satdat.read(bidx)]: one band by its one-based index; an index outside
    [1, count] raises IndexError. *)
Definition read (ds : Dataset) (bidx : Z) : outcome ndarray :=
  if ((bidx <? 1) || (count ds <? bidx))%Z then Raise (Raised IndexError)
  else
    match nth_error (read_all ds) (Z.to_nat (bidx - 1)) with
    | Some data => Return data
    | None => Raise (Raised IndexError)
    end.

(** The loop of the statistics cell over a list of band indexes: one line
    (bidx, min, max) per band. *)
Fixpoint band_lines (ds : Dataset) (idxs : list Z) : outcome (list (Z * Z * Z)) :=
  match idxs with
  | [] => Return []
  | bidx :: rest =>
      data <~ read ds bidx ;;
      mn <~ amin (ravel data) ;;
      mx <~ amax (ravel data) ;;
      lines <~ band_lines ds rest ;;
      Return ((bidx, mn, mx) :: lines)
  end.

(** "Output a min & max pixel value in each band" and "an overall min/max":
    the lines of the loop, then the pair over the whole dataset. *)
Definition stats_cell (ds : Dataset) : outcome (list (Z * Z * Z) * (Z * Z)) :=
  lines <~ band_lines ds (indexes ds) ;;
  let data := read_all ds in
  mn <~ amin (concat (map ravel data)) ;;
  mx <~ amax (concat (map ravel data)) ;;
  Return (lines, (mn, mx)).

(** A scene whose bands have three rows and no column. *)
Definition scene_empty : Dataset :=
  mkDataset T3 0 3 [[]; []; []] [[]; []; []] [[]; []; []] [[]; []; []].

(** ** Inversion with a tolerance *)

(** Modelled from the spec: SingularTransform is raised for a "zero (or
    numerically negligible) determinant".  The spec gives no threshold, so
    it is a parameter: [negligible] is the largest magnitude of a
    determinant that counts as zero, and 0 gives the exact test of
    [Affine.invert]. *)
Definition is_negligible (negligible : Q) (T : Affine.t) : bool :=
  Qle_bool (Qabs (Affine.determinant T)) negligible.

Definition invert_within (negligible : Q) (T : Affine.t) : result Affine.t :=
  if is_negligible negligible T then Err SingularTransform
  else Affine.invert T.

(** Modelled from the spec: [world_to_pixel] with that test in front of the
    inversion. *)
Definition world_to_pixel_within
  (negligible : Q) (T : Affine.t) (x y : Q) (op : rounding_policy)
  : result (Z * Z) :=
  inv <- invert_within negligible T ;;
  let '(fcol, frow) := Affine.mul inv (x, y) in
  Ok (apply_policy op frow, apply_policy op fcol).


(** ** The resolution cell on machine floats *)

#[local] Set Warnings "-inexact-float".

Module Binary64.

(** The six coefficients as binary64 values. *)
Record t : Type := mk { a : float; b : float; c : float;
                        d : float; e : float; f : float }.

(** The conversion of a Python integer in a float operation; exact below
    2^53 in magnitude. *)
Definition of_int (n : Z) : float :=
  if (n <? 0)%Z then (- of_uint63 (Uint63.of_Z (- n)))%float
  else of_uint63 (Uint63.of_Z n).

(** Modelled from the spec: the forward mapping, each product and sum
    rounded to binary64. *)
Definition mul (T : t) (v : float * float) : float * float :=
  let '(vx, vy) := v in
  (a T * vx + b T * vy + c T, d T * vx + e T * vy + f T)%float.

Definition fmin (x y : float) : float := if (y <? x)%float then y else x.
Definition fmax (x y : float) : float := if (x <? y)%float then y else x.
Definition fmin4 (p q r s : float) : float := fmin (fmin p q) (fmin r s).
Definition fmax4 (p q r s : float) : float := fmax (fmax p q) (fmax r s).

(** Modelled from the spec: the bounds as the extent of the four grid
    corners, as in [bounds] above: (left, bottom, right, top). *)
Definition bounds (T : t) (width height : Z)
  : float * float * float * float :=
  let w := of_int width in
  let h := of_int height in
  let '(x0, y0) := mul T (0, 0)%float in
  let '(x1, y1) := mul T (0%float, h) in
  let '(x2, y2) := mul T (w, h) in
  let '(x3, y3) := mul T (w, 0%float) in
  (fmin4 x0 x1 x2 x3, fmin4 y0 y1 y2 y3,
   fmax4 x0 x1 x2 x3, fmax4 y0 y1 y2 y3).

(** Python's [x / n] of a float by an integer. *)
Definition truediv (x : float) (n : Z) : result float :=
  if (n =? 0)%Z then Err ZeroDivisionError else Ok (x / of_int n)%float.

(** The resolution cell: xres, yres and the flag [xres == yres]. *)
Definition resolution_cell (T : t) (width height : Z)
  : result (float * float * bool) :=
  let '(bleft, bbottom, bright, btop) := bounds T width height in
  xres <- truediv (bright - bleft) width ;;
  yres <- truediv (btop - bbottom) height ;;
  Ok (xres, yres, (xres =? yres)%float).

(** The transform of the spec's scenarios. *)
Definition T3 : t := mk 3 0 500000 0 (-3) 4000000.

(** 3.7-metre pixels at the origin (512345.5, 4000321.3). *)
Definition T37 : t := mk 3.7 0 512345.5 0 (-3.7) 4000321.3.

(** The x span of the bounds of [T3] over [w] columns, once the product
    [b * h] is known to be 0, and the y span over [h] rows likewise. *)
Definition xspan_T3 (w : float) : float :=
  (fmax4 500000 (3 * 0 + 0 + 500000) (3 * w + 0 + 500000)
         (3 * w + 0 * 0 + 500000)
   - fmin4 500000 (3 * 0 + 0 + 500000) (3 * w + 0 + 500000)
           (3 * w + 0 * 0 + 500000))%float.

Definition yspan_T3 (h : float) : float :=
  (fmax4 4000000 (0 * 0 + -3 * h + 4000000) (0 + -3 * h + 4000000)
         (0 + -3 * 0 + 4000000)
   - fmin4 4000000 (0 * 0 + -3 * h + 4000000) (0 + -3 * h + 4000000)
           (0 + -3 * 0 + 4000000))%float.

(** The [n] integers from [start] on. *)
Fixpoint zrange (n : nat) (start : Z) : list Z :=
  match n with
  | O => []
  | S k => start :: zrange k (start + 1)%Z
  end.

(** The grid sizes the statements about [T3] range over: 1 to 20000. *)
Definition sizes : list Z := zrange (Z.to_nat 20000) 1.

End Binary64.

(** ** Telling the positions of a band apart *)

(** The band of shape (h, w) whose entry at (i, j) is [i * w + j]. *)
Definition position_band (h w : Z) : ndarray :=
  map (fun i => map (fun j => (Z.of_nat i * w + Z.of_nat j)%Z)
                    (seq 0 (Z.to_nat w)))
      (seq 0 (Z.to_nat h)).

(** A sheared scene of 3 rows and 3 columns: x grows with the row as well
    as with the column. *)
Definition scene_sheared : Dataset :=
  mkDataset (Affine.mk 1000 1500 500000 0 (-1000) 4000000) 3 3
            (position_band 3 3) (position_band 3 3) (position_band 3 3)
            (position_band 3 3).

(** * Properties *)

(** ** Inversion of the transform *)

Lemma is_degenerate_false (T : Affine.t) :
  Affine.is_degenerate T = false <-> ~ Affine.determinant T == 0.
Proof.
  unfold Affine.is_degenerate. split.
  - intros H. now apply Qeq_bool_neq.
  - intros H. destruct (Qeq_bool (Affine.determinant T) 0) eqn:E; trivial.
    apply Qeq_bool_eq in E. contradiction.
Qed.

Lemma is_degenerate_true (T : Affine.t) :
  Affine.is_degenerate T = true <-> Affine.determinant T == 0.
Proof. unfold Affine.is_degenerate. apply Qeq_bool_iff. Qed.

(** The fractional coordinates of an invertible transform, in closed form. *)
Lemma world_to_fractional_ok (T : Affine.t) (x y : Q) :
  Affine.is_degenerate T = false ->
  exists frow fcol,
    world_to_fractional T x y = Ok (frow, fcol)
    /\ frow == (Affine.a T * (y - Affine.f T) - Affine.d T * (x - Affine.c T))
               / Affine.determinant T
    /\ fcol == (Affine.e T * (x - Affine.c T) - Affine.b T * (y - Affine.f T))
               / Affine.determinant T.
Proof.
  intros H. pose proof (proj1 (is_degenerate_false T) H) as Hdet.
  unfold world_to_fractional, Affine.invert. rewrite H. cbn.
  eexists. eexists. split; [reflexivity|]. split; field; exact Hdet.
Qed.

Lemma world_to_pixel_ok (T : Affine.t) (x y : Q) (op : rounding_policy) :
  Affine.is_degenerate T = false ->
  exists frow fcol,
    world_to_fractional T x y = Ok (frow, fcol)
    /\ world_to_pixel T x y op = Ok (apply_policy op frow, apply_policy op fcol).
Proof.
  intros H. destruct (world_to_fractional_ok T x y H) as (frow & fcol & E & _).
  exists frow, fcol. split; [exact E|].
  unfold world_to_pixel. now rewrite E.
Qed.

(** The inverse undoes the forward mapping exactly. *)
Lemma fractional_of_forward (T : Affine.t) (row col : Z) :
  Affine.is_degenerate T = false ->
  exists frow fcol,
    world_to_fractional T (fst (pixel_to_world T row col))
                          (snd (pixel_to_world T row col)) = Ok (frow, fcol)
    /\ frow == inject_Z row /\ fcol == inject_Z col.
Proof.
  intros H. pose proof (proj1 (is_degenerate_false T) H) as Hdet.
  destruct (world_to_fractional_ok T (fst (pixel_to_world T row col))
              (snd (pixel_to_world T row col)) H) as (frow & fcol & E & Hr & Hc).
  exists frow, fcol. split; [exact E|].
  unfold Affine.determinant in *. cbn in Hr, Hc.
  split; [rewrite Hr | rewrite Hc]; field; exact Hdet.
Qed.

(** ** Rounding *)

Lemma Qround_half_even_comp (q q' : Q) :
  q == q' -> Qround_half_even q = Qround_half_even q'.
Proof.
  intros H. unfold Qround_half_even.
  rewrite (Qfloor_comp _ _ H).
  assert (E : q - inject_Z (Qfloor q') == q' - inject_Z (Qfloor q'))
    by (rewrite H; reflexivity).
  now rewrite (Qcompare_comp _ _ E _ _ (Qeq_refl (1 # 2))).
Qed.

Lemma apply_policy_comp (op : rounding_policy) (q q' : Q) :
  q == q' -> apply_policy op q = apply_policy op q'.
Proof.
  intros H. destruct op; cbn.
  - now apply Qfloor_comp.
  - now apply Qround_half_even_comp.
  - now apply Qceiling_comp.
Qed.

(** The floor of a rational between two consecutive integers. *)
Lemma Qfloor_unique (q : Q) (n : Z) :
  inject_Z n <= q -> q < inject_Z (n + 1) -> Qfloor q = n.
Proof.
  intros Hlo Hhi.
  pose proof (Qfloor_le q) as H1. pose proof (Qlt_floor q) as H2.
  assert (A : (Qfloor q < n + 1)%Z).
  { rewrite Zlt_Qlt. eapply Qle_lt_trans; eassumption. }
  assert (B : (n < Qfloor q + 1)%Z).
  { rewrite Zlt_Qlt. eapply Qle_lt_trans; eassumption. }
  lia.
Qed.

(** Rounding to nearest absorbs any error below half a pixel. *)
Lemma Qround_half_even_near (n : Z) (q : Q) :
  Qabs (q - inject_Z n) < 1 # 2 -> Qround_half_even q = n.
Proof.
  intros H. apply Qabs_Qlt_condition in H. destruct H as [Hlo Hhi].
  unfold Qround_half_even.
  destruct (Qlt_le_dec q (inject_Z n)) as [Hneg | Hpos].
  - assert (F : Qfloor q = (n - 1)%Z).
    { apply Qfloor_unique.
      - unfold Z.sub. rewrite inject_Z_plus, inject_Z_opp.
        change (inject_Z 1) with 1. lra.
      - replace (n - 1 + 1)%Z with n by lia. exact Hneg. }
    rewrite F.
    assert (G : 1 # 2 < q - inject_Z (n - 1)).
    { unfold Z.sub. rewrite inject_Z_plus, inject_Z_opp.
      change (inject_Z 1) with 1. lra. }
    rewrite (proj1 (Qgt_alt _ _) G). lia.
  - assert (F : Qfloor q = n).
    { apply Qfloor_unique; [exact Hpos|].
      rewrite inject_Z_plus. change (inject_Z 1) with 1. lra. }
    rewrite F.
    assert (G : q - inject_Z n < 1 # 2) by lra.
    now rewrite (proj1 (Qlt_alt _ _) G).
Qed.

(** Every policy leaves an integer where it is. *)
Lemma apply_policy_inject_Z (op : rounding_policy) (n : Z) :
  apply_policy op (inject_Z n) = n.
Proof.
  destruct op; cbn.
  - apply Qfloor_Z.
  - apply Qround_half_even_near.
    setoid_replace (inject_Z n - inject_Z n) with 0 by ring. reflexivity.
  - apply Qceiling_Z.
Qed.

(** ** The forward and inverse mappings *)

(** C1: with a=3, b=0, c=500000, d=0, e=-3, f=4000000 the forward mapping
    sends pixel (row 0, col 0) to (500000, 4000000) and pixel (row 1, col 1)
    to (500003, 3999997).  The transform applied as the corner cell does, to
    the pairs (0, 0) and (1, 1), gives the same two points. *)
Theorem pixel_to_world_T3 :
  pixel_to_world T3 0 0 = (500000, 4000000)
  /\ pixel_to_world T3 1 1 = (500003, 3999997)
  /\ fst (corners_cell scene_3m) = (500000, 4000000)
  /\ Affine.mul (transform scene_3m) (1, 1) = (500003, 3999997).
Proof. repeat split. Qed.

(** C2: for the same transform the world point (500001.5, 3999998.5) maps to
    (row 0, col 0) under floor and to (row 1, col 1) under ceil; the
    fractional coordinates before rounding are (1/2, 1/2). *)
Theorem world_to_pixel_T3 :
  world_to_pixel T3 500001.5 3999998.5 floor = Ok (0, 0)%Z
  /\ world_to_pixel T3 500001.5 3999998.5 ceil = Ok (1, 1)%Z
  /\ (exists frow fcol,
        world_to_fractional T3 500001.5 3999998.5 = Ok (frow, fcol)
        /\ frow == 1 # 2 /\ fcol == 1 # 2)
  /\ index scene_3m 500001.5 3999998.5 floor = Ok (0, 0)%Z.
Proof.
  split; [vm_compute; reflexivity|]. split; [vm_compute; reflexivity|].
  split; [|vm_compute; reflexivity].
  eexists. eexists. split; [vm_compute; reflexivity|]. split; reflexivity.
Qed.

(** C4: for an invertible transform and any integer pixel, mapping the pixel
    to world coordinates and back under the round policy gives the pixel
    again; the fractional coordinates before rounding may be off by anything
    below half a pixel without changing the result. *)
Theorem world_to_pixel_round_trip (T : Affine.t) (row col : Z) :
  ~ Affine.determinant T == 0 ->
  world_to_pixel T (fst (pixel_to_world T row col))
                   (snd (pixel_to_world T row col)) round = Ok (row, col)
  /\ exists frow fcol,
       world_to_fractional T (fst (pixel_to_world T row col))
                             (snd (pixel_to_world T row col)) = Ok (frow, fcol)
       /\ forall dr dc, Qabs dr < 1 # 2 -> Qabs dc < 1 # 2 ->
            apply_policy round (frow + dr) = row
            /\ apply_policy round (fcol + dc) = col.
Proof.
  intros Hdet. apply is_degenerate_false in Hdet.
  destruct (fractional_of_forward T row col Hdet) as (frow & fcol & E & Hr & Hc).
  split.
  - unfold world_to_pixel. rewrite E. cbn [bind].
    rewrite (apply_policy_comp round _ _ Hr), (apply_policy_comp round _ _ Hc).
    now rewrite !apply_policy_inject_Z.
  - exists frow, fcol. split; [exact E|]. intros dr dc Hdr Hdc. cbn.
    split; apply Qround_half_even_near.
    + setoid_replace (frow + dr - inject_Z row) with dr by (rewrite Hr; ring).
      exact Hdr.
    + setoid_replace (fcol + dc - inject_Z col) with dc by (rewrite Hc; ring).
      exact Hdc.
Qed.

Lemma world_to_pixel_round_trip_witness :
  world_to_pixel T3 (fst (pixel_to_world T3 7 11))
                    (snd (pixel_to_world T3 7 11)) round = Ok (7, 11)%Z
  /\ exists frow fcol,
       world_to_fractional T3 (fst (pixel_to_world T3 7 11))
                              (snd (pixel_to_world T3 7 11)) = Ok (frow, fcol)
       /\ forall dr dc, Qabs dr < 1 # 2 -> Qabs dc < 1 # 2 ->
            apply_policy round (frow + dr) = 7%Z
            /\ apply_policy round (fcol + dc) = 11%Z.
Proof.
  apply (world_to_pixel_round_trip T3 7 11).
  intros H. vm_compute in H. discriminate H.
Defined.

(** The exact test is the tolerance 0, and a determinant that is not
    negligible is inverted as before. *)
Lemma is_negligible_0 (T : Affine.t) :
  is_negligible 0 T = Affine.is_degenerate T.
Proof.
  unfold is_negligible, Affine.is_degenerate.
  destruct (Qeq_bool (Affine.determinant T) 0) eqn:E.
  - apply Qeq_bool_eq in E. apply Qle_bool_iff. rewrite E. cbn. lra.
  - apply Qeq_bool_neq in E.
    destruct (Qle_bool (Qabs (Affine.determinant T)) 0) eqn:F; trivial.
    apply Qle_bool_iff in F. apply Qabs_Qle_condition in F.
    exfalso. apply E. lra.
Qed.

Lemma world_to_pixel_within_regular
  (negligible : Q) (T : Affine.t) (x y : Q) (op : rounding_policy) :
  is_negligible negligible T = false ->
  world_to_pixel_within negligible T x y op = world_to_pixel T x y op.
Proof.
  intros H. unfold world_to_pixel_within, invert_within, world_to_pixel,
    world_to_fractional. rewrite H.
  destruct (Affine.invert T) as [inv|]; [|reflexivity]. cbn [bind].
  now destruct (Affine.mul inv (x, y)).
Qed.

Lemma world_to_pixel_within_0
  (T : Affine.t) (x y : Q) (op : rounding_policy) :
  world_to_pixel_within 0 T x y op = world_to_pixel T x y op.
Proof.
  destruct (Affine.is_degenerate T) eqn:E.
  - unfold world_to_pixel_within, invert_within, world_to_pixel,
      world_to_fractional, Affine.invert.
    now rewrite is_negligible_0, E.
  - apply world_to_pixel_within_regular. now rewrite is_negligible_0.
Qed.



(** C8: on a dataset with an invertible transform the index conversion
    succeeds for every world point and every policy, and it returns indices
    outside [0, height) x [0, width) as ordinary results. *)
Theorem index_total_unchecked (ds : Dataset) :
  ~ Affine.determinant (transform ds) == 0 ->
  (forall x y op, exists row col, index ds x y op = Ok (row, col))
  /\ (forall op, exists x y row col,
        index ds x y op = Ok (row, col) /\ valid_index ds row col = false).
Proof.
  intros Hdet. apply is_degenerate_false in Hdet. split.
  - intros x y op.
    destruct (world_to_pixel_ok (transform ds) x y op Hdet)
      as (frow & fcol & _ & E).
    unfold index. rewrite E. eauto.
  - intros op.
    destruct (fractional_of_forward (transform ds) (-1) (-1) Hdet)
      as (frow & fcol & E & Hr & Hc).
    exists (fst (pixel_to_world (transform ds) (-1) (-1))),
           (snd (pixel_to_world (transform ds) (-1) (-1))), (-1)%Z, (-1)%Z.
    split; [|reflexivity].
    unfold index, world_to_pixel. rewrite E. cbn [bind].
    rewrite (apply_policy_comp op _ _ Hr), (apply_policy_comp op _ _ Hc).
    now rewrite !apply_policy_inject_Z.
Qed.

Lemma index_total_unchecked_witness :
  (forall x y op, exists row col, index scene_3m x y op = Ok (row, col))
  /\ (forall op, exists x y row col,
        index scene_3m x y op = Ok (row, col)
        /\ valid_index scene_3m row col = false).
Proof.
  apply (index_total_unchecked scene_3m).
  intros H. vm_compute in H. discriminate H.
Defined.

(** ** The square-pixel check *)

Lemma Qabs_le_0 (q : Q) : Qabs q <= 0 <-> q == 0.
Proof.
  split; intros H.
  - apply Qabs_Qle_condition in H. lra.
  - rewrite H. cbn. lra.
Qed.

Lemma pixels_square_spec_0 (xres yres : Q) :
  pixels_square xres yres = is_square_pixel_spec 0 xres yres.
Proof.
  unfold pixels_square, is_square_pixel_spec.
  destruct (Qeq_bool xres yres) eqn:E; symmetry.
  - apply Qeq_bool_eq in E. apply Qle_bool_iff, Qabs_le_0. lra.
  - apply Qeq_bool_neq in E.
    destruct (Qle_bool (Qabs (xres - yres)) 0) eqn:F; trivial.
    apply Qle_bool_iff, Qabs_le_0 in F. exfalso. apply E. lra.
Qed.

(** C3 fails as stated: the cell's flag is false for pixels
    3 m by 3.0000000001 m although the two resolutions differ by less than
    the tolerance 1e-9. *)
Lemma pixels_square_rejects_within_tolerance :
  is_square_pixel_spec 1e-9 3 3.0000000001 = true
  /\ pixels_square 3 3.0000000001 = false
  /\ (exists xres yres,
        resolution_cell scene_nearly_square = Ok (xres, yres, false)
        /\ xres == 3 /\ yres == 3.0000000001)
  /\ ~ (forall tolerance xres yres,
          pixels_square xres yres = true
          <-> Qabs (xres - yres) <= tolerance).
Proof.
  split; [reflexivity|]. split; [reflexivity|]. split.
  - eexists. eexists. split; [vm_compute; reflexivity|].
    split; reflexivity.
  - intros H. specialize (H 1e-9 3 3.0000000001).
    assert (F : pixels_square 3 3.0000000001 = true).
    { apply H. apply Qle_bool_iff. reflexivity. }
    discriminate F.
Qed.

(** C3, amended: the flag printed by the resolution cell takes no tolerance;
    it is true exactly when xres and yres are equal, which is the spec's
    predicate at tolerance 0 only. *)
Theorem resolution_cell_square_exact
  (ds : Dataset) (xres yres : Q) (sq : bool) :
  resolution_cell ds = Ok (xres, yres, sq) ->
  (sq = true <-> xres == yres)
  /\ sq = is_square_pixel_spec 0 xres yres.
Proof.
  unfold resolution_cell. intros H.
  destruct (truediv _ (width ds)) as [x|]; [|discriminate H].
  destruct (truediv _ (height ds)) as [y|]; [|discriminate H].
  cbn in H. injection H as -> -> <-. split.
  - apply Qeq_bool_iff.
  - apply pixels_square_spec_0.
Qed.

Lemma resolution_cell_square_exact_witness :
  (true = true <-> 12 # 4 == 9 # 3)
  /\ true = is_square_pixel_spec 0 (12 # 4) (9 # 3).
Proof.
  apply (resolution_cell_square_exact scene_3m). reflexivity.
Defined.

(** ** The corner cell *)

(** C5 fails as stated: the collapsed scene is axis-aligned
    and has 3 rows and 4 columns, yet the printed bottom-right corner is the
    true world position of pixel (row 2, col 3). *)
Lemma corners_cell_collapsed_agree :
  Affine.b (transform scene_collapsed) == 0
  /\ Affine.d (transform scene_collapsed) == 0
  /\ height scene_collapsed <> width scene_collapsed
  /\ snd (corners_cell scene_collapsed)
     = pixel_to_world (transform scene_collapsed)
         (height scene_collapsed - 1) (width scene_collapsed - 1)
  /\ ~ (forall ds,
          Affine.b (transform ds) == 0 -> Affine.d (transform ds) == 0 ->
          height ds <> width ds ->
          snd (corners_cell ds)
          <> pixel_to_world (transform ds) (height ds - 1) (width ds - 1)).
Proof.
  split; [reflexivity|]. split; [reflexivity|].
  split; [discriminate|]. split; [reflexivity|].
  intros H. apply (H scene_collapsed); [reflexivity | reflexivity | discriminate
                                      | reflexivity].
Qed.

(** C5, amended: the corner cell applies the transform to (row, col) pairs.
    For an axis-aligned transform the printed bottom-right corner is
    (a (height - 1) + c, e (width - 1) + f); it is the true world position
    of pixel (height - 1, width - 1) exactly when height = width or a and e
    are both zero, so for a and e not both zero it is wrong whenever height
    and width differ.  The printed top-left corner is always the true one. *)
Theorem corners_cell_transposed (ds : Dataset) :
  Affine.b (transform ds) == 0 ->
  Affine.d (transform ds) == 0 ->
  let botright := snd (corners_cell ds) in
  let truth := pixel_to_world (transform ds) (height ds - 1) (width ds - 1) in
  fst botright
    == Affine.a (transform ds) * inject_Z (height ds - 1) + Affine.c (transform ds)
  /\ snd botright
    == Affine.e (transform ds) * inject_Z (width ds - 1) + Affine.f (transform ds)
  /\ ((fst botright == fst truth /\ snd botright == snd truth)
      <-> (height ds = width ds
           \/ (Affine.a (transform ds) == 0 /\ Affine.e (transform ds) == 0)))
  /\ fst (corners_cell ds) = pixel_to_world (transform ds) 0 0.
Proof.
  intros Hb Hd. cbn.
  set (h := inject_Z (height ds - 1)). set (w := inject_Z (width ds - 1)).
  assert (Hhw : h == w <-> height ds = width ds).
  { unfold h, w. rewrite inject_Z_injective. lia. }
  split; [rewrite Hb; ring|]. split; [rewrite Hd; ring|]. split; [|reflexivity].
  rewrite Hb, Hd. split.
  - intros [Hx Hy].
    assert (Ha : Affine.a (transform ds) * (h - w) == 0) by lra.
    assert (He : Affine.e (transform ds) * (h - w) == 0) by lra.
    apply Qmult_integral in Ha. apply Qmult_integral in He.
    destruct Ha as [Ha | Ha]; [|left; apply Hhw; lra].
    destruct He as [He | He]; [|left; apply Hhw; lra].
    right. split; assumption.
  - intros [Heq | [Ha He]].
    + apply Hhw in Heq. rewrite Heq. split; ring.
    + rewrite Ha, He. split; ring.
Qed.

Lemma corners_cell_transposed_witness :
  let botright := snd (corners_cell scene_3m) in
  let truth := pixel_to_world T3 2 3 in
  fst botright == 3 * 2 + 500000
  /\ snd botright == (-3) * 3 + 4000000
  /\ ((fst botright == fst truth /\ snd botright == snd truth)
      <-> (3%Z = 4%Z \/ (3 == 0 /\ -3 == 0)))
  /\ fst (corners_cell scene_3m) = pixel_to_world T3 0 0.
Proof.
  apply (corners_cell_transposed scene_3m); reflexivity.
Defined.

(** ** The resolution cell against the coefficients *)

Lemma Qabs_square (q : Q) : Qabs q * Qabs q == q * q.
Proof.
  destruct (Qlt_le_dec q 0) as [H | H].
  - rewrite (Qabs_neg q) by lra. ring.
  - rewrite (Qabs_pos q) by exact H. ring.
Qed.

Lemma Qmax4_cases (p q r s : Q) :
  (p <= Qmax4 p q r s /\ q <= Qmax4 p q r s
   /\ r <= Qmax4 p q r s /\ s <= Qmax4 p q r s)
  /\ (Qmax4 p q r s == p \/ Qmax4 p q r s == q
      \/ Qmax4 p q r s == r \/ Qmax4 p q r s == s).
Proof.
  unfold Qmax4.
  destruct (Q.max_spec p q) as [[H1 E1] | [H1 E1]];
  destruct (Q.max_spec r s) as [[H2 E2] | [H2 E2]];
  destruct (Q.max_spec (Qmax p q) (Qmax r s)) as [[H3 E3] | [H3 E3]];
  rewrite E3; rewrite E1, E2 in H3; rewrite ?E1, ?E2;
  (split;
   [ repeat split; lra
   | first [ left; lra | right; left; lra
           | right; right; left; lra | right; right; right; lra ] ]).
Qed.

Lemma Qmin4_cases (p q r s : Q) :
  (Qmin4 p q r s <= p /\ Qmin4 p q r s <= q
   /\ Qmin4 p q r s <= r /\ Qmin4 p q r s <= s)
  /\ (Qmin4 p q r s == p \/ Qmin4 p q r s == q
      \/ Qmin4 p q r s == r \/ Qmin4 p q r s == s).
Proof.
  unfold Qmin4.
  destruct (Q.min_spec p q) as [[H1 E1] | [H1 E1]];
  destruct (Q.min_spec r s) as [[H2 E2] | [H2 E2]];
  destruct (Q.min_spec (Qmin p q) (Qmin r s)) as [[H3 E3] | [H3 E3]];
  rewrite E3; rewrite E1, E2 in H3; rewrite ?E1, ?E2;
  (split;
   [ repeat split; lra
   | first [ left; lra | right; left; lra
           | right; right; left; lra | right; right; right; lra ] ]).
Qed.

(** Short names for the coefficients and the grid size of a dataset. *)
Ltac name_coefficients ds :=
  set (a := Affine.a (transform ds)) in *;
  set (b := Affine.b (transform ds)) in *;
  set (c := Affine.c (transform ds)) in *;
  set (d := Affine.d (transform ds)) in *;
  set (e := Affine.e (transform ds)) in *;
  set (f := Affine.f (transform ds)) in *;
  set (w := inject_Z (width ds)) in *;
  set (h := inject_Z (height ds)) in *.

(** The largest (smallest) of four numbers bounds each and is one of them. *)
Ltac split_max4 :=
  match goal with
  | |- context [Qmax4 ?p ?q ?r ?s] =>
      destruct (Qmax4_cases p q r s) as [(? & ? & ? & ?) [? | [? | [? | ?]]]]
  end.

Ltac split_min4 :=
  match goal with
  | |- context [Qmin4 ?p ?q ?r ?s] =>
      destruct (Qmin4_cases p q r s) as [(? & ? & ? & ?) [? | [? | [? | ?]]]]
  end.

(** Extent of an axis-aligned raster: |a| width by |e| height. *)
Lemma dimensions_axis_aligned (ds : Dataset) :
  Affine.b (transform ds) == 0 ->
  Affine.d (transform ds) == 0 ->
  (0 < width ds)%Z -> (0 < height ds)%Z ->
  fst (dimensions_cell ds) == Qabs (Affine.a (transform ds)) * inject_Z (width ds)
  /\ snd (dimensions_cell ds)
     == Qabs (Affine.e (transform ds)) * inject_Z (height ds).
Proof.
  intros Hb Hd Hw Hh.
  rewrite Zlt_Qlt in Hw, Hh. change (inject_Z 0) with 0 in Hw, Hh.
  unfold dimensions_cell, bounds. cbn.
  name_coefficients ds.
  assert (Hbh : b * h == 0) by (rewrite Hb; ring).
  assert (Hdw : d * w == 0) by (rewrite Hd; ring).
  split.
  - destruct (Qlt_le_dec a 0) as [Ha | Ha].
    + rewrite (Qabs_neg a) by lra.
      assert (Haw : a * w < 0) by nra.
      split_max4; split_min4; lra.
    + rewrite (Qabs_pos a) by exact Ha.
      assert (Haw : 0 <= a * w) by nra.
      split_max4; split_min4; lra.
  - destruct (Qlt_le_dec e 0) as [He | He].
    + rewrite (Qabs_neg e) by lra.
      assert (Heh : e * h < 0) by nra.
      split_max4; split_min4; lra.
    + rewrite (Qabs_pos e) by exact He.
      assert (Heh : 0 <= e * h) by nra.
      split_max4; split_min4; lra.
Qed.

(** In exact arithmetic the cell's resolution on an axis-aligned raster is
    (|a|, |e|), the non-negative square roots of a^2 + d^2 and b^2 + e^2. *)
Lemma resolution_exact_axis_aligned (ds : Dataset) :
  Affine.b (transform ds) == 0 ->
  Affine.d (transform ds) == 0 ->
  (0 < width ds)%Z -> (0 < height ds)%Z ->
  exists xres yres sq,
    resolution_cell ds = Ok (xres, yres, sq)
    /\ xres == Qabs (Affine.a (transform ds))
    /\ yres == Qabs (Affine.e (transform ds))
    /\ is_resolution (transform ds) xres yres = true
    /\ (transform ds = T3 -> xres == 3 /\ yres == 3).
Proof.
  intros Hb Hd Hw Hh.
  destruct (dimensions_axis_aligned ds Hb Hd Hw Hh) as [Hx Hy].
  unfold dimensions_cell in Hx, Hy. cbn [fst snd] in Hx, Hy.
  unfold resolution_cell, truediv.
  destruct (Z.eqb_spec (width ds) 0) as [E | _]; [lia|].
  destruct (Z.eqb_spec (height ds) 0) as [E | _]; [lia|].
  cbn [bind].
  assert (Hw' : ~ inject_Z (width ds) == 0).
  { change 0 with (inject_Z 0). rewrite inject_Z_injective. lia. }
  assert (Hh' : ~ inject_Z (height ds) == 0).
  { change 0 with (inject_Z 0). rewrite inject_Z_injective. lia. }
  eexists. eexists. eexists. split; [reflexivity|].
  assert (Ex : (BoundingBox.right (bounds ds) - BoundingBox.left (bounds ds))
               / inject_Z (width ds) == Qabs (Affine.a (transform ds))).
  { rewrite Hx. field. exact Hw'. }
  assert (Ey : (BoundingBox.top (bounds ds) - BoundingBox.bottom (bounds ds))
               / inject_Z (height ds) == Qabs (Affine.e (transform ds))).
  { rewrite Hy. field. exact Hh'. }
  split; [exact Ex|]. split; [exact Ey|]. split.
  - unfold is_resolution. rewrite !andb_true_iff.
    repeat split.
    + apply Qle_bool_iff. rewrite Ex. apply Qabs_nonneg.
    + apply Qeq_bool_iff. rewrite Ex, Qabs_square, Hd. ring.
    + apply Qle_bool_iff. rewrite Ey. apply Qabs_nonneg.
    + apply Qeq_bool_iff. rewrite Ey, Qabs_square, Hb. ring.
  - intros ET. rewrite ET in Ex, Ey. split; assumption.
Qed.

(** *** The same cell on machine floats *)

Lemma in_zrange (k : nat) (start n : Z) :
  In n (Binary64.zrange k start) <-> (start <= n < start + Z.of_nat k)%Z.
Proof.
  revert start. induction k as [| k IH]; intros start.
  - cbn. lia.
  - cbn [Binary64.zrange In]. rewrite IH. lia.
Qed.

Lemma sizes_iff (n : Z) : In n Binary64.sizes <-> (1 <= n <= 20000)%Z.
Proof. unfold Binary64.sizes. rewrite in_zrange. lia. Qed.

(** A zero coefficient contributes nothing to a corner. *)
Lemma zero_times_size (n : Z) :
  In n Binary64.sizes -> (0 * Binary64.of_int n)%float = 0%float.
Proof.
  assert (C : forallb
                (fun n => Leibniz.eqb (0 * Binary64.of_int n)%float 0%float)
                Binary64.sizes = true) by (vm_compute; reflexivity).
  rewrite forallb_forall in C. intros H. now apply Leibniz.eqb_spec, C.
Qed.

Lemma xres_T3_sizes (w : Z) :
  In w Binary64.sizes ->
  Binary64.truediv (Binary64.xspan_T3 (Binary64.of_int w)) w = Ok 3%float.
Proof.
  assert (C : forallb
                (fun w =>
                   match Binary64.truediv
                           (Binary64.xspan_T3 (Binary64.of_int w)) w with
                   | Ok x => Leibniz.eqb x 3%float
                   | Err _ => false
                   end) Binary64.sizes = true) by (vm_compute; reflexivity).
  rewrite forallb_forall in C. intros H. specialize (C w H).
  destruct (Binary64.truediv _ w) as [x|]; [|discriminate].
  apply Leibniz.eqb_spec in C. now subst.
Qed.

Lemma yres_T3_sizes (h : Z) :
  In h Binary64.sizes ->
  Binary64.truediv (Binary64.yspan_T3 (Binary64.of_int h)) h = Ok 3%float.
Proof.
  assert (C : forallb
                (fun h =>
                   match Binary64.truediv
                           (Binary64.yspan_T3 (Binary64.of_int h)) h with
                   | Ok y => Leibniz.eqb y 3%float
                   | Err _ => false
                   end) Binary64.sizes = true) by (vm_compute; reflexivity).
  rewrite forallb_forall in C. intros H. specialize (C h H).
  destruct (Binary64.truediv _ h) as [y|]; [|discriminate].
  apply Leibniz.eqb_spec in C. now subst.
Qed.

(** On every grid up to 20000 by 20000 the binary64 cell gives exactly
    (3.0, 3.0) for the transform of the spec's scenarios. *)
Lemma resolution_binary64_T3 (w h : Z) :
  (1 <= w <= 20000)%Z -> (1 <= h <= 20000)%Z ->
  Binary64.resolution_cell Binary64.T3 w h = Ok (3, 3, true)%float.
Proof.
  intros Hw Hh. apply sizes_iff in Hw, Hh.
  unfold Binary64.resolution_cell, Binary64.bounds, Binary64.mul, Binary64.T3.
  cbv beta iota delta [Binary64.a Binary64.b Binary64.c
                       Binary64.d Binary64.e Binary64.f].
  rewrite (zero_times_size w Hw), (zero_times_size h Hh).
  change (Binary64.fmax4 _ _ _ _ - Binary64.fmin4 _ _ _ (3 * _ + _ + _))%float
    with (Binary64.xspan_T3 (Binary64.of_int w)).
  change (Binary64.fmax4 _ _ _ _ - Binary64.fmin4 _ _ _ _)%float
    with (Binary64.yspan_T3 (Binary64.of_int h)).
  rewrite (xres_T3_sizes w Hw), (yres_T3_sizes h Hh). reflexivity.
Qed.

(** C9 fails as stated: with a = 3.7, e = -3.7 at the origin
    (512345.5, 4000321.3) on 8123 columns and 4057 rows the binary64 cell
    gives xres 3.6999999999999971 and yres 3.6999999999999771, neither of
    them |a| = |e| = 3.7, and prints that the pixels are not square. *)
Lemma resolution_binary64_inexact :
  Binary64.resolution_cell Binary64.T37 8123 4057
  = Ok (3.6999999999999971, 3.6999999999999771, false)%float
  /\ (3.6999999999999971 =? abs (Binary64.a Binary64.T37))%float = false
  /\ (3.6999999999999771 =? abs (Binary64.e Binary64.T37))%float = false
  /\ (Binary64.b Binary64.T37 =? 0)%float = true
  /\ (Binary64.d Binary64.T37 =? 0)%float = true
  /\ ~ (forall T w h xres yres sq,
          (Binary64.b T =? 0)%float = true ->
          (Binary64.d T =? 0)%float = true ->
          Binary64.resolution_cell T w h = Ok (xres, yres, sq) ->
          (xres =? abs (Binary64.a T))%float = true
          /\ (yres =? abs (Binary64.e T))%float = true).
Proof.
  split; [vm_compute; reflexivity|].
  split; [vm_compute; reflexivity|]. split; [vm_compute; reflexivity|].
  split; [vm_compute; reflexivity|]. split; [vm_compute; reflexivity|].
  intros H.
  destruct (H Binary64.T37 8123%Z 4057%Z _ _ _ eq_refl eq_refl eq_refl)
    as [F _].
  vm_compute in F. discriminate F.
Qed.

(** C9, amended: in exact arithmetic the resolution the cell computes from
    the bounds of an axis-aligned raster is (|a|, |e|), the coefficient-based
    resolution (sqrt(a^2 + d^2), sqrt(b^2 + e^2)); the binary64 values the
    cell computes need not equal it.  For a = 3, e = -3, c = 500000,
    f = 4000000 the binary64 cell gives exactly (3.0, 3.0) on every grid up
    to 20000 by 20000. *)
Theorem resolution_cell_axis_aligned (ds : Dataset) (w h : Z) :
  Affine.b (transform ds) == 0 ->
  Affine.d (transform ds) == 0 ->
  (0 < width ds)%Z -> (0 < height ds)%Z ->
  (1 <= w <= 20000)%Z -> (1 <= h <= 20000)%Z ->
  (exists xres yres sq,
     resolution_cell ds = Ok (xres, yres, sq)
     /\ xres == Qabs (Affine.a (transform ds))
     /\ yres == Qabs (Affine.e (transform ds))
     /\ is_resolution (transform ds) xres yres = true
     /\ (transform ds = T3 -> xres == 3 /\ yres == 3))
  /\ Binary64.resolution_cell Binary64.T3 w h = Ok (3, 3, true)%float.
Proof.
  intros Hb Hd Hwd Hht Hw Hh. split.
  - now apply resolution_exact_axis_aligned.
  - now apply resolution_binary64_T3.
Qed.

Lemma resolution_cell_axis_aligned_witness :
  (exists xres yres sq,
     resolution_cell scene_3m = Ok (xres, yres, sq)
     /\ xres == Qabs 3 /\ yres == Qabs (-3)
     /\ is_resolution T3 xres yres = true
     /\ (T3 = T3 -> xres == 3 /\ yres == 3))
  /\ Binary64.resolution_cell Binary64.T3 8123 4057 = Ok (3, 3, true)%float.
Proof.
  apply (resolution_cell_axis_aligned scene_3m 8123 4057);
    solve [reflexivity | lia].
Defined.

(** ** The lookup cell *)

(** *** Array subscripts *)

Lemma getitem_negative {A : Type} (l : list A) (i : Z) (dflt : A) :
  (- Z.of_nat (length l) <= i < 0)%Z ->
  getitem l i = Ok (nth (Z.to_nat (Z.of_nat (length l) + i)) l dflt).
Proof.
  intros H. unfold getitem, normalize_index.
  destruct (Z.ltb_spec i (- Z.of_nat (length l))) as [F | _]; [lia|].
  destruct (Z.leb_spec (Z.of_nat (length l)) i) as [F | _]; [lia|].
  destruct (Z.ltb_spec i 0) as [_ | F]; [|lia].
  cbn. rewrite (Z.add_comm i).
  now rewrite (nth_error_nth' l dflt) by lia.
Qed.

Lemma getitem_below {A : Type} (l : list A) (i : Z) :
  (i < - Z.of_nat (length l))%Z -> getitem l i = Err IndexError.
Proof.
  intros H. unfold getitem, normalize_index.
  destruct (Z.ltb_spec i (- Z.of_nat (length l))) as [_ | F]; [reflexivity|lia].
Qed.

(** Two negative subscripts within the shape land on the pixel counted from
    the bottom-right corner. *)
Lemma getitem2_negative (arr : ndarray) (h w i j : Z) :
  has_shape arr h w ->
  (- h <= i < 0)%Z -> (- w <= j < 0)%Z ->
  getitem2 arr i j = Ok (pixel arr (h + i) (w + j)).
Proof.
  intros [Hlen Hrows] Hi Hj. subst h. unfold getitem2, pixel.
  rewrite (getitem_negative arr i []) by exact Hi. cbn [bind].
  set (r := nth (Z.to_nat (Z.of_nat (length arr) + i)) arr []).
  assert (Hr : Z.of_nat (length r) = w).
  { rewrite Forall_forall in Hrows. apply Hrows. apply nth_In. lia. }
  rewrite (getitem_negative r j 0%Z) by lia.
  now rewrite Hr.
Qed.

(** A negative subscript below the shape raises. *)
Lemma getitem2_below (arr : ndarray) (h w i j : Z) :
  has_shape arr h w ->
  (i < 0)%Z -> (j < 0)%Z -> (i < - h \/ j < - w)%Z ->
  getitem2 arr i j = Err IndexError.
Proof.
  intros [Hlen Hrows] Hi Hj Hout. subst h. unfold getitem2.
  destruct (Z.lt_ge_cases i (- Z.of_nat (length arr))) as [Hlow | Hin].
  - now rewrite getitem_below.
  - rewrite (getitem_negative arr i []) by lia. cbn [bind].
    set (r := nth (Z.to_nat (Z.of_nat (length arr) + i)) arr []).
    assert (Hr : Z.of_nat (length r) = w).
    { rewrite Forall_forall in Hrows. apply Hrows. apply nth_In. lia. }
    apply getitem_below. lia.
Qed.

(** *** The world point of the lookup *)

Lemma Qfloor_neg (q : Q) : q < 0 -> (Qfloor q < 0)%Z.
Proof.
  intros H. rewrite Zlt_Qlt. eapply Qle_lt_trans; [apply Qfloor_le | exact H].
Qed.

(** On a north-up raster the box starts at the transform's origin. *)
Lemma bounds_north_up (ds : Dataset) :
  north_up ds ->
  BoundingBox.left (bounds ds) == Affine.c (transform ds)
  /\ BoundingBox.top (bounds ds) == Affine.f (transform ds).
Proof.
  intros (Hb & Hd & Ha & He & Hw & Hh).
  rewrite Zlt_Qlt in Hw, Hh. change (inject_Z 0) with 0 in Hw, Hh.
  unfold bounds. cbn.
  name_coefficients ds.
  assert (Hbh : b * h == 0) by (rewrite Hb; ring).
  assert (Hdw : d * w == 0) by (rewrite Hd; ring).
  assert (Haw : 0 < a * w) by nra.
  assert (Heh : e * h < 0) by nra.
  split.
  - split_min4; lra.
  - split_max4; lra.
Qed.

(** The fractional coordinates of the lookup point: 2000 / e rows and
    -2000 / a columns from the origin. *)
Lemma lookup_fractional (ds : Dataset) :
  north_up ds ->
  exists frow fcol,
    world_to_fractional (transform ds) (fst (lookup_coords ds))
                        (snd (lookup_coords ds)) = Ok (frow, fcol)
    /\ frow == 2000 / Affine.e (transform ds)
    /\ fcol == - (2000) / Affine.a (transform ds).
Proof.
  intros Hn. destruct (bounds_north_up ds Hn) as [Hl Ht].
  destruct Hn as (Hb & Hd & Ha & He & _ & _).
  assert (Hdet : ~ Affine.determinant (transform ds) == 0).
  { unfold Affine.determinant. rewrite Hb. nra. }
  apply is_degenerate_false in Hdet.
  destruct (world_to_fractional_ok (transform ds) (fst (lookup_coords ds))
              (snd (lookup_coords ds)) Hdet) as (frow & fcol & E & Hr & Hc).
  exists frow, fcol. split; [exact E|].
  unfold lookup_coords in Hr, Hc. cbn [fst snd] in Hr, Hc.
  unfold Affine.determinant in Hr, Hc.
  rewrite Hl, Ht, Hb, Hd in Hr, Hc.
  split; [rewrite Hr | rewrite Hc]; field; lra.
Qed.

Lemma north_up_scene_3m : north_up scene_3m.
Proof. repeat split. Qed.

Lemma has_shape_sample_band (k : Z) : has_shape (sample_band k) 3 4.
Proof. split; [reflexivity | repeat constructor]. Qed.

Lemma well_shaped_sample_scene (T : Affine.t) : well_shaped (sample_scene T).
Proof. repeat split; try apply has_shape_sample_band; repeat constructor. Qed.

(** C6 fails as stated: the 3-metre scene is north-up with
    positive pixel sizes, the lookup subscripts are (-667, -667), and the
    first band access raises IndexError on the 3 by 4 arrays; no value is
    returned. *)
Lemma lookup_cell_small_scene_raises :
  north_up scene_3m /\ well_shaped scene_3m
  /\ lookup_subscript scene_3m = Ok (-667, -667)%Z
  /\ getitem2 (red scene_3m) (-667) (-667) = Err IndexError
  /\ lookup_cell scene_3m = Err IndexError
  /\ ~ (forall ds, north_up ds -> well_shaped ds ->
          exists values, lookup_cell ds = Ok values).
Proof.
  split; [exact north_up_scene_3m|].
  split; [apply well_shaped_sample_scene|].
  split; [vm_compute; reflexivity|]. split; [vm_compute; reflexivity|].
  split; [vm_compute; reflexivity|].
  intros H.
  destruct (H scene_3m north_up_scene_3m (well_shaped_sample_scene T3))
    as [values E].
  vm_compute in E. discriminate E.
Qed.

(** C6, amended: on a north-up raster with positive pixel sizes the lookup
    point (bounds.left - 2000, bounds.top + 2000) gives the subscripts
    row = floor(-2000 / a) and col = floor(2000 / e), both negative.  When
    neither is below minus the matching dimension the four accesses return,
    without any error, the values of the pixel counted back from the
    bottom-right corner, at (height + row, width + col); otherwise the cell
    raises IndexError. *)
Theorem lookup_cell_north_up (ds : Dataset) :
  north_up ds -> well_shaped ds ->
  fst (lookup_coords ds) < BoundingBox.left (bounds ds)
  /\ BoundingBox.top (bounds ds) < snd (lookup_coords ds)
  /\ exists row col,
    lookup_subscript ds = Ok (row, col)
    /\ row = Qfloor (- (2000) / Affine.a (transform ds))
    /\ col = Qfloor (2000 / Affine.e (transform ds))
    /\ (row < 0)%Z /\ (col < 0)%Z
    /\ ((- height ds <= row)%Z -> (- width ds <= col)%Z ->
        lookup_cell ds
        = Ok (pixel (red ds) (height ds + row) (width ds + col),
              pixel (green ds) (height ds + row) (width ds + col),
              pixel (blue ds) (height ds + row) (width ds + col),
              pixel (nir ds) (height ds + row) (width ds + col)))
    /\ ((row < - height ds)%Z \/ (col < - width ds)%Z ->
        lookup_cell ds = Err IndexError).
Proof.
  intros Hn (Sb & Sg & Sr & Sn).
  split; [unfold lookup_coords; cbn [fst]; lra|].
  split; [unfold lookup_coords; cbn [snd]; lra|].
  destruct (lookup_fractional ds Hn) as (frow & fcol & E & Hr & Hc).
  destruct Hn as (_ & _ & Ha & He & _ & _).
  assert (Esub : lookup_subscript ds = Ok (Qfloor fcol, Qfloor frow)).
  { unfold lookup_subscript, index, world_to_pixel.
    destruct (lookup_coords ds) as [x y]. cbn [fst snd] in E.
    now rewrite E. }
  exists (Qfloor fcol), (Qfloor frow).
  assert (Nrow : (Qfloor fcol < 0)%Z).
  { apply Qfloor_neg. rewrite Hc.
    assert (P : - (2000) / Affine.a (transform ds) * Affine.a (transform ds)
                == - (2000)) by (field; lra).
    set (q := - (2000) / Affine.a (transform ds)) in *. nra. }
  assert (Ncol : (Qfloor frow < 0)%Z).
  { apply Qfloor_neg. rewrite Hr.
    assert (P : 2000 / Affine.e (transform ds) * Affine.e (transform ds)
                == 2000) by (field; lra).
    set (q := 2000 / Affine.e (transform ds)) in *. nra. }
  split; [exact Esub|].
  split; [now apply Qfloor_comp|]. split; [now apply Qfloor_comp|].
  split; [exact Nrow|]. split; [exact Ncol|]. split.
  - intros Hrow Hcol. unfold lookup_cell, read_bands. rewrite Esub. cbn [bind].
    rewrite (getitem2_negative _ _ _ _ _ Sr), (getitem2_negative _ _ _ _ _ Sg),
      (getitem2_negative _ _ _ _ _ Sb), (getitem2_negative _ _ _ _ _ Sn) by lia.
    reflexivity.
  - intros Hout. unfold lookup_cell, read_bands. rewrite Esub. cbn [bind].
    now rewrite (getitem2_below _ _ _ _ _ Sr Nrow Ncol Hout).
Qed.

Lemma lookup_cell_north_up_witness :
  fst (lookup_coords scene_1km) < BoundingBox.left (bounds scene_1km)
  /\ BoundingBox.top (bounds scene_1km) < snd (lookup_coords scene_1km)
  /\ exists row col,
    lookup_subscript scene_1km = Ok (row, col)
    /\ row = Qfloor (- (2000) / 1000)
    /\ col = Qfloor (2000 / - (1000))
    /\ (row < 0)%Z /\ (col < 0)%Z
    /\ ((- 3 <= row)%Z -> (- 4 <= col)%Z ->
        lookup_cell scene_1km
        = Ok (pixel (red scene_1km) (3 + row) (4 + col),
              pixel (green scene_1km) (3 + row) (4 + col),
              pixel (blue scene_1km) (3 + row) (4 + col),
              pixel (nir scene_1km) (3 + row) (4 + col)))
    /\ ((row < - 3)%Z \/ (col < - 4)%Z ->
        lookup_cell scene_1km = Err IndexError).
Proof.
  apply (lookup_cell_north_up scene_1km).
  - repeat split.
  - repeat split; repeat constructor.
Defined.

(** The 1-kilometre scene is large enough: the cell prints the values of
    pixel (row 1, col 2), two rows and two columns back from the far corner. *)
Example lookup_cell_scene_1km :
  lookup_subscript scene_1km = Ok (-2, -2)%Z
  /\ lookup_cell scene_1km = Ok (312, 212, 112, 412)%Z
  /\ pixel (red scene_1km) 1 2 = 312%Z.
Proof. repeat split; vm_compute; reflexivity. Qed.

Lemma getitem_in_range {A : Type} (l : list A) (i : Z) (dflt : A) :
  (- Z.of_nat (length l) <= i < Z.of_nat (length l))%Z ->
  getitem l i = Ok (nth (Z.to_nat (i mod Z.of_nat (length l))) l dflt).
Proof.
  intros H. destruct (Z.lt_ge_cases i 0) as [Hneg | Hpos].
  - rewrite (getitem_negative l i dflt) by lia. do 3 f_equal.
    apply (Z.mod_unique _ _ (-1)); lia.
  - unfold getitem, normalize_index.
    destruct (Z.ltb_spec i (- Z.of_nat (length l))) as [F | _]; [lia|].
    destruct (Z.leb_spec (Z.of_nat (length l)) i) as [F | _]; [lia|].
    destruct (Z.ltb_spec i 0) as [F | _]; [lia|].
    cbn. rewrite Z.mod_small by lia.
    now rewrite (nth_error_nth' l dflt) by lia.
Qed.

Lemma getitem_out_of_range {A : Type} (l : list A) (i : Z) :
  (i < - Z.of_nat (length l) \/ Z.of_nat (length l) <= i)%Z ->
  getitem l i = Err IndexError.
Proof.
  intros H. unfold getitem, normalize_index.
  destruct (Z.ltb_spec i (- Z.of_nat (length l))) as [_ | F]; [reflexivity|].
  destruct (Z.leb_spec (Z.of_nat (length l)) i) as [_ | G]; [reflexivity|lia].
Qed.

Lemma getitem2_in_range (arr : ndarray) (h w i j : Z) :
  has_shape arr h w ->
  (- h <= i < h)%Z /\ (- w <= j < w)%Z ->
  getitem2 arr i j = Ok (pixel arr (i mod h) (j mod w)).
Proof.
  intros [Hlen Hrows] [Hi Hj]. subst h. unfold getitem2, pixel.
  rewrite (getitem_in_range arr i []) by exact Hi. cbn [bind].
  set (r := nth (Z.to_nat (i mod Z.of_nat (length arr))) arr []).
  assert (Hr : Z.of_nat (length r) = w).
  { rewrite Forall_forall in Hrows. apply Hrows. apply nth_In.
    pose proof (Z.mod_pos_bound i (Z.of_nat (length arr))). lia. }
  rewrite (getitem_in_range r j 0%Z) by lia. now rewrite Hr.
Qed.

Lemma getitem2_out_of_range (arr : ndarray) (h w i j : Z) :
  has_shape arr h w ->
  ~ ((- h <= i < h)%Z /\ (- w <= j < w)%Z) ->
  getitem2 arr i j = Err IndexError.
Proof.
  intros [Hlen Hrows] Hout. subst h. unfold getitem2.
  destruct (Z.lt_ge_cases i (- Z.of_nat (length arr))) as [Hlo | Hlo];
    [rewrite getitem_out_of_range by lia; reflexivity|].
  destruct (Z.le_gt_cases (Z.of_nat (length arr)) i) as [Hhi | Hhi];
    [rewrite getitem_out_of_range by lia; reflexivity|].
  rewrite (getitem_in_range arr i []) by lia. cbn [bind].
  set (r := nth (Z.to_nat (i mod Z.of_nat (length arr))) arr []).
  assert (Hr : Z.of_nat (length r) = w).
  { rewrite Forall_forall in Hrows. apply Hrows. apply nth_In.
    pose proof (Z.mod_pos_bound i (Z.of_nat (length arr))). lia. }
  apply getitem_out_of_range. lia.
Qed.

(** *** Positions told apart *)

Lemma nth_map_seq {A : Type} (g : nat -> A) (n k : nat) (dflt : A) :
  (k < n)%nat -> nth k (map g (seq 0 n)) dflt = g k.
Proof.
  intros H. rewrite (nth_indep _ dflt (g 0%nat)) by (now rewrite length_map, length_seq).
  rewrite map_nth. now rewrite seq_nth.
Qed.

Lemma has_shape_position_band (h w : Z) :
  (0 <= h)%Z -> (0 <= w)%Z -> has_shape (position_band h w) h w.
Proof.
  intros Hh Hw. unfold has_shape, position_band. split.
  - rewrite length_map, length_seq. lia.
  - apply Forall_forall. intros row Hrow. apply in_map_iff in Hrow.
    destruct Hrow as [i [<- _]]. rewrite length_map, length_seq. lia.
Qed.

Lemma pixel_position_band (h w i j : Z) :
  (0 <= i < h)%Z -> (0 <= j < w)%Z ->
  pixel (position_band h w) i j = (i * w + j)%Z.
Proof.
  intros Hi Hj. unfold pixel, position_band.
  rewrite nth_map_seq by lia. rewrite nth_map_seq by lia.
  now rewrite !Z2Nat.id by lia.
Qed.

(** Two in-range accesses read the same entry of every band of a shape
    exactly when their subscripts agree modulo the shape. *)
Lemma getitem2_same_entry (h w i j i' j' : Z) :
  (- h <= i < h)%Z -> (- w <= j < w)%Z ->
  (- h <= i' < h)%Z -> (- w <= j' < w)%Z ->
  (forall arr, has_shape arr h w -> getitem2 arr i j = getitem2 arr i' j')
  <-> (i mod h = i' mod h)%Z /\ (j mod w = j' mod w)%Z.
Proof.
  intros Hi Hj Hi' Hj'. split.
  - intros H. specialize (H (position_band h w)
                            (has_shape_position_band h w ltac:(lia) ltac:(lia))).
    rewrite (getitem2_in_range _ h w i j) in H
      by (auto using has_shape_position_band with zarith).
    rewrite (getitem2_in_range _ h w i' j') in H
      by (auto using has_shape_position_band with zarith).
    injection H as H.
    pose proof (Z.mod_pos_bound i h ltac:(lia)) as B1.
    pose proof (Z.mod_pos_bound j w ltac:(lia)) as B2.
    pose proof (Z.mod_pos_bound i' h ltac:(lia)) as B3.
    pose proof (Z.mod_pos_bound j' w ltac:(lia)) as B4.
    rewrite !pixel_position_band in H by assumption.
    assert (E : (i mod h = i' mod h)%Z) by nia.
    split; [exact E|]. rewrite E in H. lia.
  - intros [Ei Ej] arr S.
    rewrite (getitem2_in_range arr h w i j S) by lia.
    rewrite (getitem2_in_range arr h w i' j' S) by lia.
    now rewrite Ei, Ej.
Qed.

(** C10 fails as stated: on the sheared scene the conversion returns
    (row, col) = (-2, 1), two different indices, and the transposed access
    [1, -2] still reads the intended entry of every 3 by 3 band, the one at
    (1, 1). *)
Lemma lookup_cell_transposed_same_pixel :
  well_shaped scene_sheared
  /\ index scene_sheared (fst (lookup_coords scene_sheared))
           (snd (lookup_coords scene_sheared)) floor = Ok (-2, 1)%Z
  /\ lookup_subscript scene_sheared = Ok (1, -2)%Z
  /\ lookup_cell scene_sheared = read_bands scene_sheared (-2) 1
  /\ (forall arr, has_shape arr 3 3 ->
        getitem2 arr 1 (-2) = getitem2 arr (-2) 1)
  /\ ~ (forall ds r c,
          well_shaped ds ->
          index ds (fst (lookup_coords ds)) (snd (lookup_coords ds)) floor
          = Ok (r, c) ->
          (forall arr, has_shape arr (height ds) (width ds) ->
             getitem2 arr c r = getitem2 arr r c) ->
          r = c).
Proof.
  assert (W : well_shaped scene_sheared).
  { repeat split; repeat constructor. }
  assert (S : forall arr, has_shape arr 3 3 ->
                getitem2 arr 1 (-2) = getitem2 arr (-2) 1).
  { apply getitem2_same_entry; try lia. split; reflexivity. }
  split; [exact W|]. split; [vm_compute; reflexivity|].
  split; [vm_compute; reflexivity|]. split; [vm_compute; reflexivity|].
  split; [exact S|].
  intros H. specialize (H scene_sheared (-2)%Z 1%Z W eq_refl S). discriminate H.
Qed.

(** C10, amended: the lookup cell binds [col] to the first component
    returned by the index conversion and [row] to the second, while the
    conversion returns (row, col); the bands are therefore read at the
    transposed subscripts.  Equal indices give the intended read.  When both
    orders are within range the cell reads the entry at
    (col mod height, row mod width), the intended one being at
    (row mod height, col mod width), and the two reads agree on every band
    exactly when the indices agree modulo the height and modulo the
    width. *)
Theorem lookup_cell_transposed (ds : Dataset) (r c : Z) :
  well_shaped ds ->
  index ds (fst (lookup_coords ds)) (snd (lookup_coords ds)) floor = Ok (r, c) ->
  lookup_subscript ds = Ok (c, r)
  /\ lookup_cell ds = read_bands ds c r
  /\ (r = c -> lookup_cell ds = read_bands ds r c)
  /\ ((- height ds <= r < height ds)%Z /\ (- width ds <= r < width ds)%Z
      /\ (- height ds <= c < height ds)%Z /\ (- width ds <= c < width ds)%Z ->
      lookup_cell ds
      = Ok (pixel (red ds) (c mod height ds) (r mod width ds),
            pixel (green ds) (c mod height ds) (r mod width ds),
            pixel (blue ds) (c mod height ds) (r mod width ds),
            pixel (nir ds) (c mod height ds) (r mod width ds))
      /\ read_bands ds r c
         = Ok (pixel (red ds) (r mod height ds) (c mod width ds),
               pixel (green ds) (r mod height ds) (c mod width ds),
               pixel (blue ds) (r mod height ds) (c mod width ds),
               pixel (nir ds) (r mod height ds) (c mod width ds))
      /\ ((forall arr, has_shape arr (height ds) (width ds) ->
             getitem2 arr c r = getitem2 arr r c)
          <-> (c mod height ds = r mod height ds)%Z
              /\ (r mod width ds = c mod width ds)%Z)).
Proof.
  intros (Sb & Sg & Sr & Sn) H.
  assert (E : lookup_subscript ds = Ok (c, r)).
  { unfold lookup_subscript. destruct (lookup_coords ds) as [x y].
    cbn [fst snd] in H. now rewrite H. }
  assert (L : lookup_cell ds = read_bands ds c r).
  { unfold lookup_cell. now rewrite E. }
  split; [exact E|]. split; [exact L|].
  split; [intros ->; exact L|].
  intros (R1 & R2 & C1 & C2). rewrite L. unfold read_bands.
  rewrite (getitem2_in_range _ _ _ c r Sr), (getitem2_in_range _ _ _ c r Sg),
    (getitem2_in_range _ _ _ c r Sb), (getitem2_in_range _ _ _ c r Sn)
    by (split; assumption).
  rewrite (getitem2_in_range _ _ _ r c Sr), (getitem2_in_range _ _ _ r c Sg),
    (getitem2_in_range _ _ _ r c Sb), (getitem2_in_range _ _ _ r c Sn)
    by (split; assumption).
  split; [reflexivity|]. split; [reflexivity|].
  now apply getitem2_same_entry.
Qed.

Lemma lookup_cell_transposed_witness :
  lookup_subscript scene_sheared = Ok (1, -2)%Z
  /\ lookup_cell scene_sheared = read_bands scene_sheared 1 (-2)
  /\ ((-2)%Z = 1%Z -> lookup_cell scene_sheared = read_bands scene_sheared (-2) 1)
  /\ ((- 3 <= -2 < 3)%Z /\ (- 3 <= -2 < 3)%Z
      /\ (- 3 <= 1 < 3)%Z /\ (- 3 <= 1 < 3)%Z ->
      lookup_cell scene_sheared
      = Ok (pixel (red scene_sheared) (1 mod 3) (-2 mod 3),
            pixel (green scene_sheared) (1 mod 3) (-2 mod 3),
            pixel (blue scene_sheared) (1 mod 3) (-2 mod 3),
            pixel (nir scene_sheared) (1 mod 3) (-2 mod 3))
      /\ read_bands scene_sheared (-2) 1
         = Ok (pixel (red scene_sheared) (-2 mod 3) (1 mod 3),
               pixel (green scene_sheared) (-2 mod 3) (1 mod 3),
               pixel (blue scene_sheared) (-2 mod 3) (1 mod 3),
               pixel (nir scene_sheared) (-2 mod 3) (1 mod 3))
      /\ ((forall arr, has_shape arr 3 3 ->
             getitem2 arr 1 (-2) = getitem2 arr (-2) 1)
          <-> (1 mod 3 = -2 mod 3)%Z /\ (-2 mod 3 = 1 mod 3)%Z)).
Proof.
  apply (lookup_cell_transposed scene_sheared (-2) 1).
  - repeat split; repeat constructor.
  - vm_compute. reflexivity.
Defined.

(** ** The statistics cell *)

Lemma fold_left_min_spec (l : list Z) (x : Z) :
  (fold_left Z.min l x <= x)%Z
  /\ (forall v, In v l -> (fold_left Z.min l x <= v)%Z)
  /\ (fold_left Z.min l x = x \/ In (fold_left Z.min l x) l).
Proof.
  revert x. induction l as [| y l IH]; intros x; cbn.
  - repeat split; [lia | intros v [] | now left].
  - destruct (IH (Z.min x y)) as (H1 & H2 & H3). repeat split.
    + lia.
    + intros v [<- | Hv]; [lia | now apply H2].
    + destruct H3 as [H3 | H3]; [|now right; right].
      rewrite H3. destruct (Z.min_spec x y) as [[_ ->] | [_ ->]]; auto.
Qed.

Lemma fold_left_max_spec (l : list Z) (x : Z) :
  (x <= fold_left Z.max l x)%Z
  /\ (forall v, In v l -> (v <= fold_left Z.max l x)%Z)
  /\ (fold_left Z.max l x = x \/ In (fold_left Z.max l x) l).
Proof.
  revert x. induction l as [| y l IH]; intros x; cbn.
  - repeat split; [lia | intros v [] | now left].
  - destruct (IH (Z.max x y)) as (H1 & H2 & H3). repeat split.
    + lia.
    + intros v [<- | Hv]; [lia | now apply H2].
    + destruct H3 as [H3 | H3]; [|now right; right].
      rewrite H3. destruct (Z.max_spec x y) as [[_ ->] | [_ ->]]; auto.
Qed.

(** The minimum is an entry below all entries, and only that. *)
Lemma amin_iff (l : list Z) (m : Z) :
  amin l = Return m <-> In m l /\ forall v, In v l -> (m <= v)%Z.
Proof.
  destruct l as [| x l]; cbn.
  - split; [discriminate | intros [[] _]].
  - destruct (fold_left_min_spec l x) as (H1 & H2 & H3). split.
    + intros [= <-]. split.
      * destruct H3 as [-> | H3]; auto.
      * intros v [<- | Hv]; auto.
    + intros [Hin Hle]. f_equal.
      assert (A : (m <= fold_left Z.min l x)%Z).
      { apply Hle. destruct H3 as [-> | H3]; auto. }
      destruct Hin as [<- | Hin]; [lia|]. specialize (H2 _ Hin). lia.
Qed.

Lemma amax_iff (l : list Z) (m : Z) :
  amax l = Return m <-> In m l /\ forall v, In v l -> (v <= m)%Z.
Proof.
  destruct l as [| x l]; cbn.
  - split; [discriminate | intros [[] _]].
  - destruct (fold_left_max_spec l x) as (H1 & H2 & H3). split.
    + intros [= <-]. split.
      * destruct H3 as [-> | H3]; auto.
      * intros v [<- | Hv]; auto.
    + intros [Hin Hle]. f_equal.
      assert (A : (fold_left Z.max l x <= m)%Z).
      { apply Hle. destruct H3 as [-> | H3]; auto. }
      destruct Hin as [<- | Hin]; [lia|]. specialize (H2 _ Hin). lia.
Qed.

Lemma amin_raises (l : list Z) (e : exception) :
  amin l = Raise e <-> l = [] /\ e = ValueError.
Proof.
  destruct l; cbn; split; try discriminate.
  - now intros [= <-].
  - now intros [_ ->].
  - intros [H _]. discriminate H.
Qed.

Lemma amax_raises (l : list Z) (e : exception) :
  amax l = Raise e <-> l = [] /\ e = ValueError.
Proof.
  destruct l; cbn; split; try discriminate.
  - now intros [= <-].
  - now intros [_ ->].
  - intros [H _]. discriminate H.
Qed.

(** What a successful run of the statistics cell has computed. *)
Lemma stats_cell_inv (ds : Dataset) (lines : list (Z * Z * Z)) (mn mx : Z) :
  stats_cell ds = Return (lines, (mn, mx)) ->
  exists bmn bmx gmn gmx rmn rmx nmn nmx,
    amin (ravel (blue ds)) = Return bmn /\ amax (ravel (blue ds)) = Return bmx
    /\ amin (ravel (green ds)) = Return gmn /\ amax (ravel (green ds)) = Return gmx
    /\ amin (ravel (red ds)) = Return rmn /\ amax (ravel (red ds)) = Return rmx
    /\ amin (ravel (nir ds)) = Return nmn /\ amax (ravel (nir ds)) = Return nmx
    /\ lines = [(1, bmn, bmx); (2, gmn, gmx); (3, rmn, rmx); (4, nmn, nmx)]%Z
    /\ amin (concat (map ravel (read_all ds))) = Return mn
    /\ amax (concat (map ravel (read_all ds))) = Return mx.
Proof.
  unfold stats_cell. cbn [indexes read_all length seq map band_lines].
  change (read ds (Z.of_nat 1)) with (Return (blue ds)).
  change (read ds (Z.of_nat 2)) with (Return (green ds)).
  change (read ds (Z.of_nat 3)) with (Return (red ds)).
  change (read ds (Z.of_nat 4)) with (Return (nir ds)).
  cbn [and_then].
  destruct (amin (ravel (blue ds))) as [bmn|]; [|discriminate].
  destruct (amax (ravel (blue ds))) as [bmx|]; [|discriminate].
  destruct (amin (ravel (green ds))) as [gmn|]; [|discriminate].
  destruct (amax (ravel (green ds))) as [gmx|]; [|discriminate].
  destruct (amin (ravel (red ds))) as [rmn|]; [|discriminate].
  destruct (amax (ravel (red ds))) as [rmx|]; [|discriminate].
  destruct (amin (ravel (nir ds))) as [nmn|]; [|discriminate].
  destruct (amax (ravel (nir ds))) as [nmx|]; [|discriminate].
  cbn [and_then].
  destruct (amin (concat _)) as [m1|]; [|discriminate].
  destruct (amax (concat _)) as [m2|]; [|discriminate].
  cbn [and_then]. intros [= <- <- <-].
  exists bmn, bmx, gmn, gmx, rmn, rmx, nmn, nmx. repeat split; reflexivity.
Qed.

(** X1: when the statistics cell succeeds it has printed one line per band
    index, in the order of [satdat.indexes]; the minimum and the maximum of
    a line are entries of the band read under that index and bound all its
    entries. *)
Theorem stats_cell_band_lines
  (ds : Dataset) (lines : list (Z * Z * Z)) (overall : Z * Z) :
  stats_cell ds = Return (lines, overall) ->
  map (fun line => fst (fst line)) lines = indexes ds
  /\ forall bidx bmn bmx, In (bidx, bmn, bmx) lines ->
       exists data,
         read ds bidx = Return data
         /\ In bmn (ravel data) /\ In bmx (ravel data)
         /\ forall v, In v (ravel data) -> (bmn <= v <= bmx)%Z.
Proof.
  destruct overall as [mn mx]. intros H.
  destruct (stats_cell_inv ds lines mn mx H)
    as (bmn & bmx & gmn & gmx & rmn & rmx & nmn & nmx
        & B1 & B2 & G1 & G2 & R1 & R2 & N1 & N2 & -> & _ & _).
  apply amin_iff in B1, G1, R1, N1. apply amax_iff in B2, G2, R2, N2.
  split; [reflexivity|].
  intros bidx m M [E | [E | [E | [E | []]]]]; injection E as <- <- <-.
  - exists (blue ds). split; [reflexivity|].
    repeat split; try tauto; [now apply B1 | now apply B2].
  - exists (green ds). split; [reflexivity|].
    repeat split; try tauto; [now apply G1 | now apply G2].
  - exists (red ds). split; [reflexivity|].
    repeat split; try tauto; [now apply R1 | now apply R2].
  - exists (nir ds). split; [reflexivity|].
    repeat split; try tauto; [now apply N1 | now apply N2].
Qed.

Lemma stats_cell_band_lines_witness :
  map (fun line => fst (fst line))
      [(1, 100, 123); (2, 200, 223); (3, 300, 323); (4, 400, 423)]%Z
  = indexes scene_3m
  /\ forall bidx bmn bmx,
       In (bidx, bmn, bmx)
          [(1, 100, 123); (2, 200, 223); (3, 300, 323); (4, 400, 423)]%Z ->
       exists data,
         read scene_3m bidx = Return data
         /\ In bmn (ravel data) /\ In bmx (ravel data)
         /\ forall v, In v (ravel data) -> (bmn <= v <= bmx)%Z.
Proof.
  apply (stats_cell_band_lines scene_3m _ (100, 423)%Z).
  vm_compute. reflexivity.
Defined.

(** X2: the overall pair printed by the statistics cell agrees with the
    lines above it: the overall minimum is the smallest of the band minima
    and the overall maximum the largest of the band maxima. *)
Theorem stats_cell_overall
  (ds : Dataset) (lines : list (Z * Z * Z)) (mn mx : Z) :
  stats_cell ds = Return (lines, (mn, mx)) ->
  (forall bidx bmn bmx, In (bidx, bmn, bmx) lines ->
     (mn <= bmn)%Z /\ (bmx <= mx)%Z)
  /\ (exists bidx bmx, In (bidx, mn, bmx) lines)
  /\ (exists bidx bmn, In (bidx, bmn, mx) lines).
Proof.
  intros H.
  destruct (stats_cell_inv ds lines mn mx H)
    as (bmn & bmx & gmn & gmx & rmn & rmx & nmn & nmx
        & B1 & B2 & G1 & G2 & R1 & R2 & N1 & N2 & -> & O1 & O2).
  apply amin_iff in O1. apply amax_iff in O2.
  destruct O1 as [I1 L1]. destruct O2 as [I2 L2].
  cbn [read_all map concat] in I1, I2, L1, L2.
  rewrite app_nil_r in I1, I2, L1, L2.
  assert (Hin : forall v,
             In v (ravel (blue ds) ++ ravel (green ds)
                   ++ ravel (red ds) ++ ravel (nir ds))
             <-> In v (ravel (blue ds)) \/ In v (ravel (green ds))
                 \/ In v (ravel (red ds)) \/ In v (ravel (nir ds))).
  { intros v. rewrite !in_app_iff. tauto. }
  apply amin_iff in B1, G1, R1, N1. apply amax_iff in B2, G2, R2, N2.
  destruct B1 as [Bi Bl], G1 as [Gi Gl], R1 as [Ri Rl], N1 as [Ni Nl].
  destruct B2 as [Bj Bu], G2 as [Gj Gu], R2 as [Rj Ru], N2 as [Nj Nu].
  assert (LB : (mn <= bmn /\ mn <= gmn /\ mn <= rmn /\ mn <= nmn)%Z).
  { repeat split; apply L1, Hin; tauto. }
  assert (UB : (bmx <= mx /\ gmx <= mx /\ rmx <= mx /\ nmx <= mx)%Z).
  { repeat split; apply L2, Hin; tauto. }
  split; [|split].
  - intros bidx m M [E | [E | [E | [E | []]]]]; injection E as <- <- <-; lia.
  - apply Hin in I1. destruct I1 as [I | [I | [I | I]]].
    + exists 1%Z, bmx. left. f_equal. f_equal. specialize (Bl _ I). lia.
    + exists 2%Z, gmx. right. left. f_equal. f_equal. specialize (Gl _ I). lia.
    + exists 3%Z, rmx. do 2 right. left. f_equal. f_equal.
      specialize (Rl _ I). lia.
    + exists 4%Z, nmx. do 3 right. left. f_equal. f_equal.
      specialize (Nl _ I). lia.
  - apply Hin in I2. destruct I2 as [I | [I | [I | I]]].
    + exists 1%Z, bmn. left. f_equal. specialize (Bu _ I). lia.
    + exists 2%Z, gmn. right. left. f_equal. specialize (Gu _ I). lia.
    + exists 3%Z, rmn. do 2 right. left. f_equal. specialize (Ru _ I). lia.
    + exists 4%Z, nmn. do 3 right. left. f_equal. specialize (Nu _ I). lia.
Qed.

Lemma stats_cell_overall_witness :
  (forall bidx bmn bmx,
     In (bidx, bmn, bmx)
        [(1, 100, 123); (2, 200, 223); (3, 300, 323); (4, 400, 423)]%Z ->
     (100 <= bmn)%Z /\ (bmx <= 423)%Z)
  /\ (exists bidx bmx,
        In (bidx, 100%Z, bmx)
           [(1, 100, 123); (2, 200, 223); (3, 300, 323); (4, 400, 423)]%Z)
  /\ (exists bidx bmn,
        In (bidx, bmn, 423%Z)
           [(1, 100, 123); (2, 200, 223); (3, 300, 323); (4, 400, 423)]%Z).
Proof.
  apply (stats_cell_overall scene_3m). vm_compute. reflexivity.
Defined.

(** X3: the statistics cell raises exactly when some band has no entry, and
    then it raises ValueError; reading the bands through [satdat.indexes]
    never raises IndexError. *)
Theorem stats_cell_raises (ds : Dataset) :
  (forall e, stats_cell ds = Raise e -> e = ValueError)
  /\ ((exists e, stats_cell ds = Raise e)
      <-> exists data, In data (read_all ds) /\ ravel data = []).
Proof.
  unfold stats_cell. cbn [indexes read_all length seq map band_lines concat].
  change (read ds (Z.of_nat 1)) with (Return (blue ds)).
  change (read ds (Z.of_nat 2)) with (Return (green ds)).
  change (read ds (Z.of_nat 3)) with (Return (red ds)).
  change (read ds (Z.of_nat 4)) with (Return (nir ds)).
  cbn [and_then].
  destruct (ravel (blue ds)) as [| b lb] eqn:Eb;
    [cbn; split; [now intros e [= <-] | split; eauto]|].
  destruct (ravel (green ds)) as [| g lg] eqn:Eg;
    [cbn; split; [now intros e [= <-] | split; eauto 6]|].
  destruct (ravel (red ds)) as [| r lr] eqn:Er;
    [cbn; split; [now intros e [= <-] | split; eauto 7]|].
  destruct (ravel (nir ds)) as [| n ln] eqn:En;
    [cbn; split; [now intros e [= <-] | split; eauto 8]|].
  cbn. split; [discriminate|]. split.
  - intros [e H]. discriminate H.
  - intros [data [[<- | [<- | [<- | [<- | []]]]] H]]; congruence.
Qed.

(** ** The resolution cell on any dataset *)

(** X5: the resolution cell raises exactly when the dataset has no column or
    no row, and the only exception it raises is ZeroDivisionError. *)
Theorem resolution_cell_zero_division (ds : Dataset) :
  ((exists e, resolution_cell ds = Err e)
   <-> width ds = 0%Z \/ height ds = 0%Z)
  /\ (forall e, resolution_cell ds = Err e -> e = ZeroDivisionError).
Proof.
  unfold resolution_cell, truediv.
  destruct (Z.eqb_spec (width ds) 0) as [Ew | Ew]; cbn [bind].
  - split; [split; eauto | now intros e [= <-]].
  - destruct (Z.eqb_spec (height ds) 0) as [Eh | Eh]; cbn [bind].
    + split; [split; eauto | now intros e [= <-]].
    + split; [|discriminate]. split.
      * intros [e H]. discriminate H.
      * intros [H | H]; contradiction.
Qed.

(** ** The corner cell on any transform *)

(** X8: for any transform, rotated or not, the bottom-right corner printed
    by the corner cell is the true world position of pixel
    (height - 1, width - 1) exactly when height = width, or a = b and
    d = e. *)
Theorem corners_cell_correct_iff (ds : Dataset) :
  let botright := snd (corners_cell ds) in
  let truth := pixel_to_world (transform ds) (height ds - 1) (width ds - 1) in
  (fst botright == fst truth /\ snd botright == snd truth)
  <-> (height ds = width ds
       \/ (Affine.a (transform ds) == Affine.b (transform ds)
           /\ Affine.d (transform ds) == Affine.e (transform ds))).
Proof.
  cbn.
  set (h := inject_Z (height ds - 1)). set (w := inject_Z (width ds - 1)).
  assert (Hhw : h == w <-> height ds = width ds).
  { unfold h, w. rewrite inject_Z_injective. lia. }
  split.
  - intros [Hx Hy].
    assert (P : (Affine.a (transform ds) - Affine.b (transform ds)) * (h - w)
                == 0) by lra.
    assert (R : (Affine.d (transform ds) - Affine.e (transform ds)) * (h - w)
                == 0) by lra.
    apply Qmult_integral in P. apply Qmult_integral in R.
    destruct P as [P | P]; [|left; apply Hhw; lra].
    destruct R as [R | R]; [|left; apply Hhw; lra].
    right. split; lra.
  - intros [Heq | [Hab Hde]].
    + apply Hhw in Heq. rewrite Heq. split; ring.
    + rewrite Hab, Hde. split; ring.
Qed.



(** ** The lookup cell on any dataset *)

(** X11: the three outcomes of the lookup cell on a dataset whose bands have
    the shape (height, width).  A singular transform raises
    SingularTransform before any band is read.  Otherwise the conversion
    yields subscripts (row, col); within [-height, height) x [-width, width)
    the cell prints the entries at (row mod height, col mod width) of the
    four bands, outside it raises IndexError. *)
Theorem lookup_cell_outcome (ds : Dataset) :
  well_shaped ds ->
  (Affine.determinant (transform ds) == 0 ->
   lookup_cell ds = Err SingularTransform)
  /\ (~ Affine.determinant (transform ds) == 0 ->
      exists row col,
        lookup_subscript ds = Ok (row, col)
        /\ ((- height ds <= row < height ds)%Z
            /\ (- width ds <= col < width ds)%Z ->
            lookup_cell ds
            = Ok (pixel (red ds) (row mod height ds) (col mod width ds),
                  pixel (green ds) (row mod height ds) (col mod width ds),
                  pixel (blue ds) (row mod height ds) (col mod width ds),
                  pixel (nir ds) (row mod height ds) (col mod width ds)))
        /\ (~ ((- height ds <= row < height ds)%Z
               /\ (- width ds <= col < width ds)%Z) ->
            lookup_cell ds = Err IndexError)).
Proof.
  intros (Sb & Sg & Sr & Sn). split.
  - intros Hdet. apply is_degenerate_true in Hdet.
    unfold lookup_cell, lookup_subscript, index, world_to_pixel,
      world_to_fractional, Affine.invert.
    destruct (lookup_coords ds) as [x y]. now rewrite Hdet.
  - intros Hdet. apply is_degenerate_false in Hdet.
    destruct (world_to_pixel_ok (transform ds) (fst (lookup_coords ds))
                (snd (lookup_coords ds)) floor Hdet) as (frow & fcol & _ & E).
    assert (Esub : lookup_subscript ds
                   = Ok (apply_policy floor fcol, apply_policy floor frow)).
    { unfold lookup_subscript, index. destruct (lookup_coords ds) as [x y].
      cbn [fst snd] in E. now rewrite E. }
    exists (apply_policy floor fcol), (apply_policy floor frow).
    split; [exact Esub|].
    unfold lookup_cell, read_bands. rewrite Esub. cbn [bind]. split.
    + intros Hin.
      rewrite (getitem2_in_range _ _ _ _ _ Sr Hin),
        (getitem2_in_range _ _ _ _ _ Sg Hin),
        (getitem2_in_range _ _ _ _ _ Sb Hin),
        (getitem2_in_range _ _ _ _ _ Sn Hin).
      reflexivity.
    + intros Hout.
      now rewrite (getitem2_out_of_range _ _ _ _ _ Sr Hout).
Qed.

Lemma lookup_cell_outcome_witness :
  (Affine.determinant (transform scene_1km) == 0 ->
   lookup_cell scene_1km = Err SingularTransform)
  /\ (~ Affine.determinant (transform scene_1km) == 0 ->
      exists row col,
        lookup_subscript scene_1km = Ok (row, col)
        /\ ((- 3 <= row < 3)%Z /\ (- 4 <= col < 4)%Z ->
            lookup_cell scene_1km
            = Ok (pixel (red scene_1km) (row mod 3) (col mod 4),
                  pixel (green scene_1km) (row mod 3) (col mod 4),
                  pixel (blue scene_1km) (row mod 3) (col mod 4),
                  pixel (nir scene_1km) (row mod 3) (col mod 4)))
        /\ (~ ((- 3 <= row < 3)%Z /\ (- 4 <= col < 4)%Z) ->
            lookup_cell scene_1km = Err IndexError)).
Proof.
  apply (lookup_cell_outcome scene_1km).
  repeat split; repeat constructor.
Defined.



(** ** The index conversion with floor *)

(** X13: with an invertible transform the floor conversion returns the one
    pixel whose cell contains the world point: the point is the image of
    (col + u, row + v) for some 0 <= u, v < 1, and no other pixel has such
    offsets. *)
Theorem world_to_pixel_floor_contains (T : Affine.t) (x y : Q) :
  ~ Affine.determinant T == 0 ->
  exists row col,
    world_to_pixel T x y floor = Ok (row, col)
    /\ (exists u v,
          0 <= u /\ u < 1 /\ 0 <= v /\ v < 1
          /\ fst (Affine.mul T (inject_Z col + u, inject_Z row + v)) == x
          /\ snd (Affine.mul T (inject_Z col + u, inject_Z row + v)) == y)
    /\ (forall row' col' u v,
          0 <= u -> u < 1 -> 0 <= v -> v < 1 ->
          fst (Affine.mul T (inject_Z col' + u, inject_Z row' + v)) == x ->
          snd (Affine.mul T (inject_Z col' + u, inject_Z row' + v)) == y ->
          row' = row /\ col' = col).
Proof.
  intros Hdet. pose proof (proj2 (is_degenerate_false T) Hdet) as Hdeg.
  destruct (world_to_fractional_ok T x y Hdeg) as (frow & fcol & E & Hr & Hc).
  exists (Qfloor frow), (Qfloor fcol).
  unfold Affine.determinant in *.
  split; [unfold world_to_pixel; now rewrite E|]. split.
  - exists (fcol - inject_Z (Qfloor fcol)), (frow - inject_Z (Qfloor frow)).
    pose proof (Qfloor_le frow) as R1. pose proof (Qlt_floor frow) as R2.
    pose proof (Qfloor_le fcol) as C1. pose proof (Qlt_floor fcol) as C2.
    rewrite inject_Z_plus in R2, C2. change (inject_Z 1) with 1 in R2, C2.
    repeat split; try lra; cbn [Affine.mul fst snd].
    + setoid_replace (inject_Z (Qfloor fcol) + (fcol - inject_Z (Qfloor fcol)))
        with fcol by ring.
      setoid_replace (inject_Z (Qfloor frow) + (frow - inject_Z (Qfloor frow)))
        with frow by ring.
      rewrite Hr, Hc. field. exact Hdet.
    + setoid_replace (inject_Z (Qfloor fcol) + (fcol - inject_Z (Qfloor fcol)))
        with fcol by ring.
      setoid_replace (inject_Z (Qfloor frow) + (frow - inject_Z (Qfloor frow)))
        with frow by ring.
      rewrite Hr, Hc. field. exact Hdet.
  - intros row' col' u v Hu0 Hu1 Hv0 Hv1 Hx Hy. cbn [Affine.mul fst snd] in Hx, Hy.
    assert (Fr : frow == inject_Z row' + v).
    { rewrite Hr, <- Hx, <- Hy. field. exact Hdet. }
    assert (Fc : fcol == inject_Z col' + u).
    { rewrite Hc, <- Hx, <- Hy. field. exact Hdet. }
    split; symmetry; apply Qfloor_unique;
      rewrite ?inject_Z_plus; change (inject_Z 1) with 1; lra.
Qed.

Lemma world_to_pixel_floor_contains_witness :
  exists row col,
    world_to_pixel T3 500001.5 3999998.5 floor = Ok (row, col)
    /\ (exists u v,
          0 <= u /\ u < 1 /\ 0 <= v /\ v < 1
          /\ fst (Affine.mul T3 (inject_Z col + u, inject_Z row + v))
             == 500001.5
          /\ snd (Affine.mul T3 (inject_Z col + u, inject_Z row + v))
             == 3999998.5)
    /\ (forall row' col' u v,
          0 <= u -> u < 1 -> 0 <= v -> v < 1 ->
          fst (Affine.mul T3 (inject_Z col' + u, inject_Z row' + v))
          == 500001.5 ->
          snd (Affine.mul T3 (inject_Z col' + u, inject_Z row' + v))
          == 3999998.5 ->
          row' = row /\ col' = col).
Proof.
  apply (world_to_pixel_floor_contains T3).
  intros H. vm_compute in H. discriminate H.
Defined.

(** ** The choice of the rounding function *)

Lemma policies_ordered (q : Q) :
  (Qfloor q <= Qround_half_even q)%Z
  /\ (Qround_half_even q <= Qceiling q)%Z
  /\ (Qceiling q <= Qfloor q + 1)%Z.
Proof.
  pose proof (Qfloor_le q) as F1. pose proof (Qlt_floor q) as F2.
  pose proof (Qle_ceiling q) as C1. pose proof (Qceiling_lt q) as C2.
  assert (FC : (Qfloor q <= Qceiling q)%Z).
  { rewrite Zle_Qle. apply Qle_floor_ceiling. }
  assert (CF : (Qceiling q <= Qfloor q + 1)%Z).
  { assert (A : (Qceiling q - 1 < Qfloor q + 1)%Z).
    { rewrite Zlt_Qlt. eapply Qlt_trans; eassumption. }
    lia. }
  split; [|split; [|exact CF]]; unfold Qround_half_even.
  - destruct (Qcompare _ _); [destruct (Z.even _)| |]; lia.
  - destruct (Qcompare (q - inject_Z (Qfloor q)) (1 # 2)) eqn:E.
    + apply Qeq_alt in E.
      assert (A : (Qfloor q < Qceiling q)%Z).
      { rewrite Zlt_Qlt. eapply Qlt_le_trans; [|exact C1]. lra. }
      destruct (Z.even _); lia.
    + exact FC.
    + apply Qgt_alt in E.
      assert (A : (Qfloor q < Qceiling q)%Z).
      { rewrite Zlt_Qlt. eapply Qlt_le_trans; [|exact C1]. lra. }
      lia.
Qed.

(** X14: for an invertible transform and any world point the three rounding
    functions give indices that differ by at most one pixel in each
    direction: floor <= round <= ceil <= floor + 1, for rows and for
    columns. *)
Theorem world_to_pixel_policies (T : Affine.t) (x y : Q) :
  ~ Affine.determinant T == 0 ->
  exists r0 c0 r1 c1 r2 c2,
    world_to_pixel T x y floor = Ok (r0, c0)
    /\ world_to_pixel T x y round = Ok (r1, c1)
    /\ world_to_pixel T x y ceil = Ok (r2, c2)
    /\ (r0 <= r1 <= r2)%Z /\ (r2 <= r0 + 1)%Z
    /\ (c0 <= c1 <= c2)%Z /\ (c2 <= c0 + 1)%Z.
Proof.
  intros Hdet. apply is_degenerate_false in Hdet.
  destruct (world_to_fractional_ok T x y Hdet) as (frow & fcol & E & _ & _).
  exists (Qfloor frow), (Qfloor fcol), (Qround_half_even frow),
    (Qround_half_even fcol), (Qceiling frow), (Qceiling fcol).
  unfold world_to_pixel. rewrite E. cbn [bind apply_policy].
  destruct (policies_ordered frow) as (R1 & R2 & R3).
  destruct (policies_ordered fcol) as (C1 & C2 & C3).
  repeat split; assumption.
Qed.

Lemma world_to_pixel_policies_witness :
  exists r0 c0 r1 c1 r2 c2,
    world_to_pixel T3 500001.5 3999998.5 floor = Ok (r0, c0)
    /\ world_to_pixel T3 500001.5 3999998.5 round = Ok (r1, c1)
    /\ world_to_pixel T3 500001.5 3999998.5 ceil = Ok (r2, c2)
    /\ (r0 <= r1 <= r2)%Z /\ (r2 <= r0 + 1)%Z
    /\ (c0 <= c1 <= c2)%Z /\ (c2 <= c0 + 1)%Z.
Proof.
  apply (world_to_pixel_policies T3).
  intros H. vm_compute in H. discriminate H.
Defined.
